(** * cyclejs-expr: the reactive formula sheet of [src/app.jsx]

    A shallow embedding of the evaluation engine of the application:
    the formula compiler ([parseFormula]), the scope lens ([lensScope]),
    the per-cell streams of [Item] and the two folds of [List].

    Conventions of the embedding.
    - A stream is represented by the list of the values it emits, oldest
      first.  [map] and [filter] of xstream are the list functions,
      [dropRepeats] is a one-cell state machine run over the list, [fold] is
      a scan that emits its seed first, [remember] is the last element.
    - A JavaScript object used as a dictionary is a [gmap string V] of its
      own properties.  The property read [obj[p]] of Ramda's [R.props] also
      finds the members every plain object inherits from
      [Object.prototype]; it is modelled by [R.prop].
    - A call that may throw returns a [result]; [console.warn] appends to an
      explicit log.
    - mathjs is an external library: its parser and evaluator are fields of
      the record [MathJs], its expression trees are the type [Node]. *)

From Stdlib Require Import ZArith Ascii String.
From stdpp Require Import base strings gmap list pretty.

Set Default Proof Using "Type".
Local Open Scope Z_scope.
Local Open Scope stdpp_scope.

(** ** JavaScript values, exceptions, console *)

(** The values a cell can hold.  Numbers are kept as integers: no statement
    below depends on the arithmetic of mathjs. *)
Inductive JSValue : Type :=
  | VUndefined
  | VNumber (n : Z).

#[global] Instance JSValue_eq_dec : EqDecision JSValue.
Proof. solve_decision. Defined.

(** A thrown exception, identified by its message. *)
Definition error : Type := string.

Inductive result (A : Type) : Type :=
  | Ok (a : A)
  | Throw (e : error).
Arguments Ok {A} a.
Arguments Throw {A} e.

(** A narrowed scope: the plain object handed to [expr.eval]. *)
Abbreviation Snapshot := (gmap string JSValue).

(** One call of [console.warn], with the arguments it received:
    [R.tryCatch] hands the catcher the exception followed by the arguments
    of the failed call. *)
Inductive diagnostic : Type :=
  | ParseWarning (e : error) (text : string)
  | EvalWarning (e : error) (scope : Snapshot).

#[global] Instance diagnostic_eq_dec : EqDecision diagnostic.
Proof. solve_decision. Defined.

(** A computation that may write to the console: the result and the lines
    it logged, in order. *)
Definition Console (A : Type) : Type := A * list diagnostic.

Definition ret {A} (a : A) : Console A := (a, []).
Definition bind {A B} (m : Console A) (k : A → Console B) : Console B :=
  let '(a, l1) := m in let '(b, l2) := k a in (b, l1 ++ l2).
Definition warn {A} (d : diagnostic) (a : A) : Console A := (a, [d]).

Infix ">>=" := bind (at level 50, left associativity).

(** [s.length] and [s[idx]] of a JavaScript string [s]: the list of its
    one-character substrings. *)
Fixpoint js_chars (s : string) : list string :=
  match s with
  | EmptyString => []
  | String c s' => String c EmptyString :: js_chars s'
  end.

(** ** The Ramda functions the program calls *)
Module R.

(** [R.equals]: structural equality. *)
Definition equals {A} `{EqDecision A} (a b : A) : bool := bool_decide (a = b).

(** [R.has(prop, obj)], on the set of own property names of [obj]. *)
Definition has (prop : string) (own : gset string) : bool :=
  bool_decide (prop ∈ own).

Definition complement {A} (f : A → bool) : A → bool := λ a, negb (f a).

Definition isEmpty (s : string) : bool := bool_decide (s = "").

(** [R.keys(obj)] *)
Definition keys {V} (obj : gmap string V) : list string := (map_to_list obj).*1.

(** What the property read [obj[p]] finds on a plain object: an own
    property, a member inherited from [Object.prototype] (a function, or
    the prototype itself for [__proto__]), or [undefined]. *)
Inductive Property (V : Type) : Type :=
  | own (v : V)
  | inherited (p : string)
  | undefined.
Arguments own {V} v.
Arguments inherited {V} p.
Arguments undefined {V}.

(** The property names of [Object.prototype]. *)
Definition Object_prototype : list string :=
  ["constructor"; "hasOwnProperty"; "isPrototypeOf"; "propertyIsEnumerable";
   "toLocaleString"; "toString"; "valueOf"; "__proto__";
   "__defineGetter__"; "__defineSetter__"; "__lookupGetter__";
   "__lookupSetter__"].

(** [R.prop(p, obj)], that is [obj[p]]. *)
Definition prop {V} (p : string) (obj : gmap string V) : Property V :=
  match obj !! p with
  | Some v => own v
  | None => if bool_decide (p ∈ Object_prototype) then inherited p else undefined
  end.

(** [R.props(ps, obj)]: [obj[p]] for every [p]. *)
Definition props {V} (ps : list string) (obj : gmap string V) : list (Property V) :=
  (λ p, prop p obj) <$> ps.

(** [R.zipObj(keys, values)] assigns [out[keys[i]] = values[i]] for
    increasing [i]: for a repeated key the last assignment stays. *)
Definition zipObj {V} (keys : list string) (values : list V) : gmap string V :=
  fold_left (λ out kv, <[kv.1 := kv.2]> out) (zip keys values) ∅.

(** [R.omit(names, obj)] fills an index with [names[0]] up to
    [names[names.length - 1]] and copies the properties of [obj] whose key
    is not in the index.  [names] is documented as an array of strings; the
    function reads it through [length] and the index operator only, which a
    string has as well. *)
Inductive ArrayLike : Type :=
  | JsArray (items : list string)
  | JsString (s : string).

Definition indexed (names : ArrayLike) : list string :=
  match names with
  | JsArray items => items
  | JsString s => js_chars s
  end.

Definition omit {V} (names : ArrayLike) (obj : gmap string V) : gmap string V :=
  filter (λ kv, kv.1 ∉ indexed names) obj.

(** [R.lensProp] and [R.set]. *)
Record Lens (S A : Type) : Type := mkLens {
  getter : S → option A;
  setter : A → S → S
}.
Arguments getter {S A} _ _.
Arguments setter {S A} _ _ _.

Definition lensProp {V} (k : string) : Lens (gmap string V) V :=
  {| getter := λ obj, obj !! k; setter := λ v obj, <[k := v]> obj |}.

Definition set {S A} (l : Lens S A) (v : A) (obj : S) : S := setter l v obj.

(** [R.tryCatch(tryer, catcher)]: the value of [tryer], passed on by
    [ok], or the value of [catcher] on the exception and the argument. *)
Definition tryCatch {A B C} (tryer : A → result B) (ok : B → C)
    (catcher : error → A → C) (a : A) : C :=
  match tryer a with
  | Ok b => ok b
  | Throw e => catcher e a
  end.

End R.

(** ** The xstream operators the program composes *)
Module xs.

(** [dropRepeats(isEq)]: the operator keeps in [v] the last value it let
    through ([None] before the first) and drops an event [t] when
    [v !== NO && isEq(t, v)]. *)
Definition repeats {A} (isEq : A → A → bool) (v : option A) (t : A) : bool :=
  match v with
  | Some u => isEq t u
  | None => false
  end.

Fixpoint dropRepeats_from {A} (isEq : A → A → bool) (v : option A) (l : list A)
    : list A :=
  match l with
  | [] => []
  | t :: l' =>
      if repeats isEq v t then dropRepeats_from isEq v l'
      else t :: dropRepeats_from isEq (Some t) l'
  end.

Definition dropRepeats {A} (isEq : A → A → bool) (l : list A) : list A :=
  dropRepeats_from isEq None l.

(** [fold(f, seed)]: emits the seed, then every accumulated value. *)
Fixpoint fold {A B} (f : B → A → B) (seed : B) (l : list A) : list B :=
  seed :: match l with
          | [] => []
          | a :: l' => fold f (f seed a) l'
          end.

(** [remember()]: a late subscriber sees the latest value. *)
Definition remember {A} (l : list A) : option A := last l.

(** [pairwise]: the operator keeps the previous event in [val] and, from
    the second event on, emits the pair of the previous and the current
    one. *)
Fixpoint pairwise_from {A} (val : option A) (l : list A) : list (A * A) :=
  match l with
  | [] => []
  | t :: l' =>
      match val with
      | Some p => (p, t) :: pairwise_from (Some t) l'
      | None => pairwise_from (Some t) l'
      end
  end.

Definition pairwise {A} (l : list A) : list (A * A) := pairwise_from None l.

End xs.

(** Restrict a stream to only emit unique values. *)
Definition uniq {A} `{EqDecision A} : list A → list A := xs.dropRepeats R.equals.

(** ** mathjs expression trees *)

#[local] Set Warnings "-register-all".

(** The node kinds of arithmetic, and [OtherNode] for every other kind
    (arrays, ranges, conditionals, ...) with the children its [forEach]
    visits. *)
Inductive Node : Type :=
  | ConstantNode (value : Z)
  | SymbolNode (name : string)
  | OperatorNode (op : string) (args : list Node)
  | FunctionNode (name : string) (args : list Node)
  | ParenthesisNode (content : Node)
  | OtherNode (type : string) (items : list Node).

Definition isSymbolNode (n : Node) : bool :=
  match n with SymbolNode _ => true | _ => false end.

(** [n.name], read by the program on symbol nodes only. *)
Definition name (n : Node) : string :=
  match n with
  | SymbolNode x | FunctionNode x _ => x
  | _ => ""
  end.

(** [node.traverse(callback)]: the callback runs on the node itself, then,
    for each child [node.forEach] visits, in turn, on the child and on what
    is below it.  The callback of the program mutates a captured array; the
    array is threaded as the state [s]. *)
Fixpoint traverse {S} (callback : Node → S → S) (n : Node) (s : S) : S :=
  let below := fold_left (λ s c, traverse callback c s) in
  match n with
  | ConstantNode _ | SymbolNode _ => callback n s
  | OperatorNode _ args | FunctionNode _ args => below args (callback n s)
  | ParenthesisNode c => traverse callback c (callback n s)
  | OtherNode _ items => below items (callback n s)
  end.

(** The interface of the mathjs module the program relies on. *)
Record MathJs : Type := {
  (** own property names of the module object: the built-in functions and
      constants *)
  members : gset string;
  (** [math.parse(text)] followed by [parsed.compile()] *)
  parse : string → result Node;
  (** [expr.eval(scope)] of the compiled tree *)
  eval : Node → Snapshot → result JSValue
}.

(** ** Formula compiler *)

Record Formula : Type := mkFormula {
  text : string;
  expr : Node;
  vars : list string
}.

Section Compiler.
Context (math : MathJs).

(** Check if a name is not reserved for math.js *)
Definition notReserved : string → bool :=
  R.complement (λ x, R.has x (members math)).

(** The callback handed to [traverse]; [vars.push] is the append. *)
Definition collect (n : Node) (vars : list string) : list string :=
  if isSymbolNode n && notReserved (name n) then vars ++ [name n] else vars.

(** Parse formula text into a structure.  The record is the object with
    [ok: true]; a throw of [math.parse] leaves the function. *)
Definition parseFormula (text : string) : result Formula :=
  match parse math text with
  | Throw e => Throw e
  | Ok parsed =>
      let expr := parsed in
      let vars := traverse collect parsed [] in
      Ok {| text := text; expr := expr; vars := vars |}
  end.

(** Signal a value for invalid formulas: [warn] is called with the
    exception and the text, and the result is the object [{ok: false}],
    here [None]. *)
Definition parseError (e : error) (text : string) : Console (option Formula) :=
  warn (ParseWarning e text) None.

(** [R.tryCatch(parseFormula, parseError)] *)
Definition compile : string → Console (option Formula) :=
  R.tryCatch parseFormula (λ f, ret (Some f)) parseError.

End Compiler.

(** ** Scope lens *)

(** The streams stored in the shared scope.  [value_ i] is the [value$] of
    the cell created in position [i]; [undefined_] is the stream
    [undefined$], whose latest value is [undefined] from the start. *)
Inductive Stream : Type :=
  | undefined_
  | value_ (cell : nat).

#[global] Instance Stream_eq_dec : EqDecision Stream.
Proof. solve_decision. Defined.

(** One instant of the sheet, as a cell sees it: the scope object emitted
    last by [scope$] and, for every cell, the value its remembered
    [value$] emitted last ([None]: nothing yet).  A trace [list World] has
    one entry per instant at which [scope$] or some [value$] emits. *)
Record World : Type := mkWorld {
  scope : gmap string Stream;
  memory : gmap nat JSValue
}.

Definition latest (mem : gmap nat JSValue) (s : Stream) : option JSValue :=
  match s with
  | undefined_ => Some VUndefined
  | value_ i => mem !! i
  end.

(** [R.when(R.equals(undefined), R.always(undefined$))]: [undefined] is
    replaced by the stream [undefined$], anything else is left as it is. *)
Definition whenUndefined (s : R.Property Stream) : R.Property Stream :=
  match s with
  | R.undefined => R.own undefined_
  | R.own _ | R.inherited _ => s
  end.

(** The argument of [xs.combine] as a stream, when it is one. *)
Definition as_stream (s : R.Property Stream) : option Stream :=
  match s with
  | R.own s => Some s
  | R.inherited _ | R.undefined => None
  end.

(** [xs.combine(...streams)] at the instant [flatten] subscribes to it:
    [_add] is called on every argument, which raises a [TypeError] on an
    argument that is not a stream; otherwise the array of the latest
    values is emitted once every stream has emitted. *)
Definition combine (mem : gmap nat JSValue) (streams : list (R.Property Stream))
    : result (option (list JSValue)) :=
  match mapM as_stream streams with
  | Some streams => Ok (mapM (latest mem) streams)
  | None => Throw "s[i]._add is not a function"
  end.

(** The chain [map(R.props(vars))] ... [map(R.zipObj(vars))] of [lensScope]
    at one instant: an exception of [combine], or what the chain emits,
    [None] when [combine] has nothing to emit. *)
Definition narrowed (vars : list string) (w : World) : result (option Snapshot) :=
  let streams := whenUndefined <$> R.props vars (scope w) in
  match combine (memory w) streams with
  | Ok values => Ok (R.zipObj vars <$> values)
  | Throw e => Throw e
  end.

(** The snapshot that leaves the chain at one instant, if any: none when
    [combine] has nothing to emit and none when it raises. *)
Definition narrow (vars : list string) (w : World) : option Snapshot :=
  match narrowed vars w with
  | Ok emitted => emitted
  | Throw _ => None
  end.

(** Given a parent scope with variables of streams, restrict it to only the
    required variables, returning a scope with stream values.  Each scope
    emission switches ([flatten]) to a fresh [combine], which replays the
    remembered values of its inputs.  The list holds the snapshots the
    lens emits; an instant at which [combine] raises adds none, and the
    exception, which unwinds into the emitter of the scope, is the
    [Throw] of [narrowed]. *)
Definition lensScope (vars : list string) (scope_ : list World) : list Snapshot :=
  uniq (omap (narrow vars) scope_).

(** ** Item *)

(** Get formula text *)
Definition formulaText : Formula → string := text.

(** What a cell sends to its parent: an element of [target$], or of
    [remove$]. *)
Inductive signal : Type :=
  | target (name formula : string) (value_ : Stream)
  | remove (name : string).

(** The inputs of a cell, in arrival order: the payload of [initial$] and
    the debounced field values and clicks of the DOM source. *)
Inductive ItemEvent : Type :=
  | initial (name formula : string)
  | nameInput (v : string)
  | formulaInput (v : string)
  | removeClick.

(** The memory of the operators of one [Item]. *)
Record ItemState : Type := mkItem {
  (** [name$]: what [uniq] let through last, replayed by [remember] *)
  name_ : option string;
  (** [formula$]: the raw text [uniq] let through last *)
  formulaRaw : option string;
  (** [formula$]: the accepted formula, replayed by [remember] *)
  formula_ : option Formula;
  (** [remove$]: the name the next click maps to, [''] at the start *)
  removeName : string
}.

Definition fresh : ItemState :=
  {| name_ := None; formulaRaw := None; formula_ := None; removeName := "" |}.

Fixpoint mapC {A B} (f : A → Console B) (l : list A) : Console (list B) :=
  match l with
  | [] => ret []
  | a :: l' => f a >>= (λ b, mapC f l' >>= (λ bs, ret (b :: bs)))
  end.

Section Item.
Context (math : MathJs) (id : nat).

(** The filter of [nameChanges$]. *)
Definition nameChanges (v : string) : option string :=
  if negb (R.isEmpty v) && notReserved math v then Some v else None.

(** [target$]: [xs.combine(name$, formula$.map(formulaText))] emits when
    one side emits and both have a value. *)
Definition target_ (n : option string) (f : option Formula) : list signal :=
  match n, f with
  | Some n, Some f => [target n (formulaText f) (value_ id)]
  | _, _ => []
  end.

(** A value entering [name$] after the merge. *)
Definition name_step (st : ItemState) (n : string) : ItemState * list signal :=
  if xs.repeats R.equals (name_ st) n then (st, [])
  else
    ({| name_ := Some n; formulaRaw := formulaRaw st;
        formula_ := formula_ st; removeName := removeName st |},
     target_ (Some n) (formula_ st)).

(** A text entering [formula$] after the merge. *)
Definition formula_step (st : ItemState) (t : string)
    : Console (ItemState * list signal) :=
  if xs.repeats R.equals (formulaRaw st) t then ret (st, [])
  else
    compile math t >>= (λ f,
      match f with
      | Some f =>
          ret ({| name_ := name_ st; formulaRaw := Some t;
                  formula_ := Some f; removeName := removeName st |},
               target_ (name_ st) (Some f))
      | None =>
          ret ({| name_ := name_ st; formulaRaw := Some t;
                  formula_ := formula_ st; removeName := removeName st |},
               [])
      end).

(** A value entering the merge of [remove$]. *)
Definition remove_step (st : ItemState) (n : string) : ItemState :=
  {| name_ := name_ st; formulaRaw := formulaRaw st;
     formula_ := formula_ st; removeName := n |}.

Definition Item_step (st : ItemState) (ev : ItemEvent)
    : Console (ItemState * list signal) :=
  match ev with
  | initial n f =>
      let '(st1, out1) := name_step (remove_step st n) n in
      formula_step st1 f >>= (λ r, ret (r.1, out1 ++ r.2))
  | nameInput v =>
      match nameChanges v with
      | Some n => ret (name_step (remove_step st n) n)
      | None => ret (st, [])
      end
  | formulaInput v => formula_step st v
  | removeClick => ret (st, [remove (removeName st)])
  end.

Fixpoint Item_run (st : ItemState) (evs : list ItemEvent)
    : Console (ItemState * list signal) :=
  match evs with
  | [] => ret (st, [])
  | ev :: evs' =>
      Item_step st ev >>= (λ r,
        Item_run r.1 evs' >>= (λ r', ret (r'.1, r.2 ++ r'.2)))
  end.

(** A cell: [initial_] is [Some] payload for [xs.of(payload)] and [None]
    for [xs.never()]. *)
Definition Item (initial_ : option (string * string)) (dom : list ItemEvent)
    : Console (ItemState * list signal) :=
  Item_run fresh (option_list ((λ p, initial p.1 p.2) <$> initial_) ++ dom).

(** Evaluate the formula against the scope. *)
Definition evaluate (f : Formula) : Snapshot → Console JSValue :=
  R.tryCatch (λ scope, eval math (expr f) scope) ret
    (λ e scope, warn (EvalWarning e scope) VUndefined).

(** The inner stream of [value$] for one accepted formula. *)
Definition value_of (f : Formula) (snapshots : list Snapshot) : Console (list JSValue) :=
  mapC (evaluate f) snapshots >>= (λ vs, ret (uniq vs)).

Definition value_inner (f : Formula) (scope_ : list World) : Console (list JSValue) :=
  value_of f (lensScope (vars f) scope_).

End Item.

(** ** List *)

Abbreviation PersistedState := (gmap string string).
Abbreviation Scope := (gmap string Stream).

Record request : Type := mkRequest {
  key : string;
  value : string
}.

#[global] Instance request_eq_dec : EqDecision request.
Proof. solve_decision. Defined.

Definition formulaReducer (t_name t_formula : string) : PersistedState → PersistedState :=
  R.set (R.lensProp t_name) t_formula.

Definition valueReducer (t_name : string) (t_value : Stream) : Scope → Scope :=
  R.set (R.lensProp t_name) t_value.

(** [removeProxy$.map(R.omit)]: the emitted name, a string, is the first
    argument of the curried [R.omit]. *)
Definition removeReducer {V} (name : string) : gmap string V → gmap string V :=
  R.omit (R.JsString name).

Definition storageReducer (s : signal) : PersistedState → PersistedState :=
  match s with
  | target n f _ => formulaReducer n f
  | remove n => removeReducer n
  end.

Definition scopeReducer (s : signal) : Scope → Scope :=
  match s with
  | target n _ v => valueReducer n v
  | remove n => removeReducer n
  end.

(** Adjust the values saved on localStorage to initial streams for child
    Items: one payload per key.  [entries] is the loaded object as
    [R.keys] and [R.values] enumerate it, its own properties in property
    order. *)
Definition asCollection_of (entries : list (string * string))
    : list (option (string * string)) :=
  (λ kv, Some (kv.1, kv.2)) <$> entries.

(** The same on the mapping alone, which does not record the property
    order: the payloads come in the order [map_to_list] lists the
    entries.  Every statement made of it below holds for every order. *)
Definition asCollection (fromStorage : PersistedState) : list (option (string * string)) :=
  asCollection_of (map_to_list fromStorage).

(** The states of the persisted mapping: the fold seeded with what was
    loaded. *)
Definition storage_states (fromStorage : PersistedState) (signals : list signal)
    : list PersistedState :=
  xs.fold (λ storage reducer, reducer storage) fromStorage (storageReducer <$> signals).

(** Shared scope with child Items. *)
Definition scope_ (signals : list signal) : list Scope :=
  xs.fold (λ scope reducer, reducer scope) ∅ (scopeReducer <$> signals).

Section List.
Context (math : MathJs).
(** [JSON.stringify] on a dictionary of strings. *)
Context (stringify : PersistedState → string).

(** localStorage persistence requests *)
Definition requests (states : list PersistedState) : list request :=
  (λ storage, {| key := "formulas"; value := stringify storage |}) <$> uniq states.

Definition storage_ (fromStorage : PersistedState) (signals : list signal) : list request :=
  requests (storage_states fromStorage signals).

(** The cells restored at start-up, in collection order, each fed its
    payload and nothing else. *)
Definition restored (fromStorage : PersistedState)
    : list (Console (ItemState * list signal)) :=
  imap (λ i initial_, Item math i initial_ []) (asCollection fromStorage).

(** What the restored cells send to the two proxies. *)
Definition bootstrap (fromStorage : PersistedState) : list signal :=
  mjoin ((λ c : Console (ItemState * list signal), c.1.2) <$> restored fromStorage).

(** The restored cells and what they send, for the loaded object given
    with its property order: the cell in position [i] is the one made
    from the [i]-th property. *)
Definition restored_of (entries : list (string * string))
    : list (Console (ItemState * list signal)) :=
  imap (λ i initial_, Item math i initial_ []) (asCollection_of entries).

Definition bootstrap_of (entries : list (string * string)) : list signal :=
  mjoin ((λ c : Console (ItemState * list signal), c.1.2) <$> restored_of entries).

End List.

(** ** Item and List, the remaining streams *)

Section Item_streams.
Context (math : MathJs).

(** What an input of the cell contributes to the merge
    [xs.merge(initial$.map(R.prop('name')), nameChanges$)]. *)
Definition name_source (ev : ItemEvent) : option string :=
  match ev with
  | initial n _ => Some n
  | nameInput v => nameChanges math v
  | formulaInput _ | removeClick => None
  end.

(** [name$], as the list of the names it emits. *)
Definition name_stream (evs : list ItemEvent) : list string :=
  uniq (omap name_source evs).

(** Signal a variable rename *)
Definition rename_ (evs : list ItemEvent) : list (string * string) :=
  xs.pairwise (name_stream evs).

End Item_streams.

(** The virtual DOM nodes the views build: [h(sel, {attrs}, children)] and
    text. *)
Inductive VNode : Type :=
  | vnode (sel : string) (attrs : list (string * string)) (children : list VNode)
  | vtext (s : string).

Section Views.
(** The string a template literal makes of a non-zero number. *)
Context (toString : Z → string).

(** [value || ''] inside the template literal: [undefined] and [0] are
    falsy. *)
Definition orEmpty (value : JSValue) : string :=
  match value with
  | VUndefined => ""
  | VNumber n => if bool_decide (n = 0) then "" else toString n
  end.

(** The function mapped over [vtree$] in [Item]. *)
Definition Item_vtree (name formula : string) (value : JSValue) : VNode :=
  vnode "div.item" []
    [vnode "button.remove" [] [vtext "Remove"];
     vnode "input.name" [("value", name)] [];
     vnode "input.formula" [("value", formula)] [];
     vnode "label" [] [vtext (" = " +:+ orEmpty value)]].

(** [vtree$] of a cell in the state [st] whose [value$] emitted [value]
    last: the three inputs of [xs.combine] start with [''], [''] and
    [undefined]. *)
Definition Item_view (st : ItemState) (value : option JSValue) : VNode :=
  Item_vtree (default "" (name_ st))
    (default "" (formulaText <$> formula_ st))
    (default VUndefined value).

End Views.

Section Storage_read.
(** [JSON.parse] on the stored text. *)
Context (JSON_parse : string → result PersistedState).

(** Load previously saved formula collection: [reads] is what
    [getItem('formulas')] emits, [None] for [null]. *)
Definition fromStorage_ (reads : list (option string)) : list (result PersistedState) :=
  (λ value : option string,
     JSON_parse (match value with
                 | Some v => if R.isEmpty v then "{}" else v
                 | None => "{}"
                 end)) <$> take 1 reads.

End Storage_read.

(** ** A small instance of the mathjs interface

    Sums of identifiers and integer literals, enough to run the
    definitions above on concrete formulas. *)
Module Sample.

Inductive token : Type :=
  | TPlus
  | TIdent (x : string)
  | TNumber (n : Z).

Definition is_letter (c : ascii) : bool :=
  let n := nat_of_ascii c in
  ((65 <=? n)%nat && (n <=? 90)%nat) || ((97 <=? n)%nat && (n <=? 122)%nat).

Definition snoc (x : string) (c : ascii) : string := x +:+ String c "".

Fixpoint lex (cur : option token) (s : string) : option (list token) :=
  match s with
  | EmptyString => Some (option_list cur)
  | String c s' =>
      if Ascii.is_space c then (λ ts, option_list cur ++ ts) <$> lex None s'
      else if bool_decide (c = "+"%char)
      then (λ ts, option_list cur ++ TPlus :: ts) <$> lex None s'
      else if is_letter c then
        match cur with
        | None => lex (Some (TIdent (String c ""))) s'
        | Some (TIdent x) => lex (Some (TIdent (snoc x c))) s'
        | Some _ => None
        end
      else
        match Ascii.is_nat c, cur with
        | Some d, None => lex (Some (TNumber (Z.of_nat d))) s'
        | Some d, Some (TNumber n) => lex (Some (TNumber (10 * n + Z.of_nat d))) s'
        | Some d, Some (TIdent x) => lex (Some (TIdent (snoc x c))) s'
        | _, _ => None
        end
  end.

Definition atom (t : token) : option Node :=
  match t with
  | TIdent x => Some (SymbolNode x)
  | TNumber n => Some (ConstantNode n)
  | TPlus => None
  end.

Fixpoint sum (acc : Node) (ts : list token) : result Node :=
  match ts with
  | [] => Ok acc
  | TPlus :: t :: ts' =>
      match atom t with
      | Some a => sum (OperatorNode "+" [acc; a]) ts'
      | None => Throw "Value expected"
      end
  | _ => Throw "Unexpected end of expression"
  end.

Definition parse_text (text : string) : result Node :=
  match lex None text with
  | Some (t :: ts) =>
      match atom t with
      | Some a => sum a ts
      | None => Throw "Value expected"
      end
  | _ => Throw "Syntax error"
  end.

Fixpoint eval_node (n : Node) (scope : Snapshot) : result JSValue :=
  match n with
  | ConstantNode v => Ok (VNumber v)
  | SymbolNode x =>
      match scope !! x with
      | Some v => Ok v
      | None => Throw ("Undefined symbol " +:+ x)
      end
  | OperatorNode _ [a; b] =>
      match eval_node a scope, eval_node b scope with
      | Ok (VNumber x), Ok (VNumber y) => Ok (VNumber (x + y))
      | Throw e, _ => Throw e
      | _, Throw e => Throw e
      | _, _ => Throw "Unexpected type of argument in function add"
      end
  | ParenthesisNode c => eval_node c scope
  | _ => Throw "Unsupported expression"
  end.

Definition mathjs : MathJs :=
  {| members := {["pi"; "e"; "sin"; "cos"; "sqrt"; "abs"]};
     parse := parse_text;
     eval := eval_node |}.

(** An injective rendering of a dictionary of strings, in the place of
    [JSON.stringify]. *)
Definition stringify (m : PersistedState) : string := pretty (encode m).

(** [JSON.parse] on the one text the first run of the program hands it. *)
Definition parse_json (s : string) : result PersistedState :=
  if bool_decide (s = "{}") then Ok ∅ else Throw "Unexpected token".

(** A sheet with the cells [x] and [y], and the formula [x + 1] of a
    third cell. *)
Definition x_plus_1 : Formula :=
  {| text := "x + 1";
     expr := OperatorNode "+" [SymbolNode "x"; ConstantNode 1];
     vars := ["x"] |}.

Definition x_plus_y : Formula :=
  {| text := "x + y";
     expr := OperatorNode "+" [SymbolNode "x"; SymbolNode "y"];
     vars := ["x"; "y"] |}.

Definition sheet (vx vy : Z) : World :=
  {| scope := {[ "x" := value_ 0; "y" := value_ 1 ]};
     memory := {[ 0%nat := VNumber vx; 1%nat := VNumber vy ]} |}.

(** The same sheet once the cell [x] is gone. *)
Definition sheet_without_x (vy : Z) : World :=
  {| scope := {[ "y" := value_ 1 ]};
     memory := {[ 0%nat := VNumber 1; 1%nat := VNumber vy ]} |}.

End Sample.

(** ** Notions used in the statements *)

(** The cell of [dropRepeats] after a run over [l] that started from [v]. *)
Definition seen {A} (v : option A) (l : list A) : option A :=
  match last l with
  | Some x => Some x
  | None => v
  end.

(** The names of the symbol nodes of a tree, one per occurrence, in the
    order a pre-order walk meets them. *)
Fixpoint symbols (n : Node) : list string :=
  match n with
  | ConstantNode _ => []
  | SymbolNode x => [x]
  | OperatorNode _ args | FunctionNode _ args => mjoin (symbols <$> args)
  | ParenthesisNode c => symbols c
  | OtherNode _ items => mjoin (symbols <$> items)
  end.

(** Every text the compiler rejected last has its diagnostic in the log. *)
Definition logged (math : MathJs) (st : ItemState) (log : list diagnostic) : Prop :=
  ∀ t e, formulaRaw st = Some t → parse math t = Throw e → ParseWarning e t ∈ log.

(** What a cell reads for the name [x] at one instant. *)
Definition lookup_value (w : World) (x : string) : option JSValue :=
  as_stream (whenUndefined (R.prop x (scope w))) ≫= latest (memory w).

(** Two instants between which nothing a formula with variables [vars]
    reads has changed. *)
Definition agree_on (vars : list string) (w w' : World) : Prop :=
  ∀ x, x ∈ vars → lookup_value w x = lookup_value w' x.

(** * Properties *)

(** ** Runs on the sample instance *)

Example uniq_run : uniq [1; 1; 2; 2; 1] = [1; 2; 1].
Proof. reflexivity. Qed.

Example parse_run :
  parse Sample.mathjs "a + 12"
  = Ok (OperatorNode "+" [SymbolNode "a"; ConstantNode 12])
  ∧ parse Sample.mathjs "1 + " = Throw "Unexpected end of expression".
Proof. split; reflexivity. Qed.

Example lensScope_run :
  lensScope ["x"]
    [Sample.sheet 1 5; Sample.sheet 1 6; Sample.sheet 2 6; Sample.sheet_without_x 6]
  = [{[ "x" := VNumber 1 ]}; {[ "x" := VNumber 2 ]}; {[ "x" := VUndefined ]}].
Proof. vm_compute. reflexivity. Qed.

Example value_run :
  value_inner Sample.mathjs Sample.x_plus_1
    [Sample.sheet 1 5; Sample.sheet 2 6; Sample.sheet_without_x 6; Sample.sheet 3 6]
  = ([VNumber 2; VNumber 3; VUndefined; VNumber 4],
     [EvalWarning "Unexpected type of argument in function add"
        {[ "x" := VUndefined ]}]).
Proof. vm_compute. reflexivity. Qed.

Example Item_run_sample :
  Item Sample.mathjs 3 None
    [formulaInput "a + 1"; nameInput "sin"; nameInput "b"; formulaInput "a +";
     nameInput "c"; removeClick]
  = ({| name_ := Some "c"; formulaRaw := Some "a +";
        formula_ := Some {| text := "a + 1";
                            expr := OperatorNode "+" [SymbolNode "a"; ConstantNode 1];
                            vars := ["a"] |};
        removeName := "c" |},
     [target "b" "a + 1" (value_ 3); target "c" "a + 1" (value_ 3); remove "c"],
     [ParseWarning "Unexpected end of expression" "a +"]).
Proof. vm_compute. reflexivity. Qed.

(** ** Streams *)

Section dropRepeats.
Context {A : Type} `{EqDecision A}.

Lemma seen_cons (v : option A) t l : seen v (t :: l) = seen (Some t) l.
Proof. unfold seen. rewrite last_cons. by destruct (last l). Qed.

Lemma repeats_equals (v : option A) (t : A) :
  xs.repeats R.equals v t = bool_decide (v = Some t).
Proof.
  destruct v as [u|]; cbn; [|done]. unfold R.equals.
  apply bool_decide_ext. split; congruence.
Qed.

Lemma dropRepeats_from_app (v : option A) (l1 l2 : list A) :
  xs.dropRepeats_from R.equals v (l1 ++ l2)
  = xs.dropRepeats_from R.equals v l1
    ++ xs.dropRepeats_from R.equals (seen v l1) l2.
Proof.
  revert v. induction l1 as [|t l1 IH]; intros v; [done|].
  rewrite seen_cons. cbn [app xs.dropRepeats_from]. rewrite repeats_equals.
  case_bool_decide as Hv.
  - rewrite IH. by rewrite Hv.
  - by rewrite IH.
Qed.

Lemma dropRepeats_from_seen (v : option A) (l : list A) :
  seen v (xs.dropRepeats_from R.equals v l) = seen v l.
Proof.
  revert v. induction l as [|t l IH]; intros v; [done|].
  cbn [xs.dropRepeats_from]. rewrite repeats_equals. case_bool_decide as Hv.
  - rewrite IH, seen_cons. by rewrite Hv.
  - by rewrite !seen_cons, IH.
Qed.

Lemma last_uniq (l : list A) : last (uniq l) = last l.
Proof.
  pose proof (dropRepeats_from_seen None l) as H.
  unfold seen, uniq, xs.dropRepeats in *.
  destruct (last (xs.dropRepeats_from R.equals None l)), (last l); congruence.
Qed.

(** The head of the output differs from the cell, and neighbours in the
    output differ. *)
Lemma dropRepeats_from_head (v : option A) (l : list A) x :
  head (xs.dropRepeats_from R.equals v l) = Some x → v ≠ Some x.
Proof.
  induction l as [|t l IH]; [done|].
  cbn [xs.dropRepeats_from]. rewrite repeats_equals.
  case_bool_decide as Hv; [done|].
  intros [= ->]. done.
Qed.

Lemma dropRepeats_from_adjacent (v : option A) (l : list A) i x y :
  xs.dropRepeats_from R.equals v l !! i = Some x →
  xs.dropRepeats_from R.equals v l !! S i = Some y →
  x ≠ y.
Proof.
  revert v i. induction l as [|t l IH]; intros v i; [done|].
  cbn [xs.dropRepeats_from]. rewrite repeats_equals.
  case_bool_decide as Hv; [by apply IH|].
  destruct i as [|i]; cbn.
  - intros [= ->] Hy Heq. subst y.
    apply (dropRepeats_from_head (Some x) l x); [|done].
    by rewrite head_lookup.
  - apply IH.
Qed.

Lemma uniq_adjacent (l : list A) i x y :
  uniq l !! i = Some x → uniq l !! S i = Some y → x ≠ y.
Proof. apply dropRepeats_from_adjacent. Qed.

Lemma uniq_snoc_same (l : list A) x :
  last l = Some x → uniq (l ++ [x]) = uniq l.
Proof.
  intros Hl. unfold uniq, xs.dropRepeats.
  rewrite dropRepeats_from_app. unfold seen. rewrite Hl.
  cbn [xs.dropRepeats_from]. rewrite repeats_equals.
  rewrite bool_decide_eq_true_2 by done. by rewrite app_nil_r.
Qed.

Lemma uniq_snoc_new (l : list A) x :
  last l ≠ Some x → uniq (l ++ [x]) = uniq l ++ [x].
Proof.
  intros Hl. unfold uniq, xs.dropRepeats.
  rewrite dropRepeats_from_app. unfold seen.
  cbn [xs.dropRepeats_from]. rewrite repeats_equals.
  destruct (last l) eqn:E.
  - rewrite bool_decide_eq_false_2; [done|congruence].
  - by rewrite bool_decide_eq_false_2.
Qed.

End dropRepeats.

Lemma fold_app {A B} (f : B → A → B) seed l1 l2 :
  xs.fold f seed (l1 ++ l2)
  = xs.fold f seed l1 ++ tail (xs.fold f (fold_left f l1 seed) l2).
Proof.
  revert seed. induction l1 as [|a l1 IH]; intros seed.
  - destruct l2; done.
  - cbn [app xs.fold fold_left]. f_equal. destruct l1; apply IH.
Qed.

Lemma fold_last {A B} (f : B → A → B) seed l :
  last (xs.fold f seed l) = Some (fold_left f l seed).
Proof.
  revert seed. induction l as [|a l IH]; intros seed; [done|].
  cbn [xs.fold fold_left]. rewrite <- IH. by destruct l.
Qed.

(** ** Formula compiler *)

Lemma Node_forall_ind (P : Node → Prop) :
  (∀ v, P (ConstantNode v)) →
  (∀ x, P (SymbolNode x)) →
  (∀ op args, Forall P args → P (OperatorNode op args)) →
  (∀ f args, Forall P args → P (FunctionNode f args)) →
  (∀ c, P c → P (ParenthesisNode c)) →
  (∀ ty items, Forall P items → P (OtherNode ty items)) →
  ∀ n, P n.
Proof.
  intros Hc Hs Ho Hf Hp Hother.
  fix IH 1. intros n.
  pose (all := fix all (l : list Node) : Forall P l :=
          match l with
          | [] => Forall_nil_2 P
          | m :: l' => Forall_cons_2 P m l' (IH m) (all l')
          end).
  destruct n as [v|x|op args|f args|c|ty items].
  - apply Hc.
  - apply Hs.
  - apply Ho, all.
  - apply Hf, all.
  - apply Hp, IH.
  - apply Hother, all.
Qed.

Section Compiler_facts.
Context (math : MathJs).

Lemma traverse_below (args : list Node) (acc : list string) :
  Forall (λ n, ∀ acc, traverse (collect math) n acc
                      = acc ++ filter (λ x, notReserved math x) (symbols n)) args →
  fold_left (λ s c, traverse (collect math) c s) args acc
  = acc ++ filter (λ x, notReserved math x) (mjoin (symbols <$> args)).
Proof.
  intros Hall. revert acc. induction Hall as [|n args Hn _ IH]; intros acc.
  - cbn. by rewrite app_nil_r.
  - cbn [fold_left fmap list_fmap mjoin list_join]. rewrite Hn, IH.
    by rewrite filter_app, app_assoc.
Qed.

Lemma traverse_collect (n : Node) (acc : list string) :
  traverse (collect math) n acc = acc ++ filter (λ x, notReserved math x) (symbols n).
Proof.
  revert acc. induction n as [v|x|op args IH|f args IH|c IH|ty items IH]
    using Node_forall_ind; intros acc.
  - cbn. by rewrite app_nil_r.
  - cbn [traverse symbols]. unfold collect. cbn [isSymbolNode name andb].
    rewrite filter_cons, filter_nil.
    destruct (notReserved math x); cbn; [done|by rewrite app_nil_r].
  - cbn [traverse symbols]. by rewrite traverse_below.
  - cbn [traverse symbols]. by rewrite traverse_below.
  - cbn [traverse symbols]. by rewrite IH.
  - cbn [traverse symbols]. by rewrite traverse_below.
Qed.

End Compiler_facts.

(** C1, as the code has it: for a text that parses, [vars] lists the
    non-reserved symbol names of the tree in the order of the walk, one
    entry per occurrence; a name is in the list exactly when it is the name
    of a non-reserved symbol node. *)
Theorem parseFormula_vars_occurrences (math : MathJs) (t : string) (f : Formula) :
  parseFormula math t = Ok f →
  ∃ parsed,
    parse math t = Ok parsed ∧
    text f = t ∧ expr f = parsed ∧
    vars f = filter (λ x, notReserved math x) (symbols parsed) ∧
    (∀ x, x ∈ vars f ↔ x ∈ symbols parsed ∧ notReserved math x).
Proof.
  unfold parseFormula. destruct (parse math t) as [parsed|e]; [|done].
  intros [= <-]. exists parsed. cbn [text expr vars].
  rewrite traverse_collect. cbn [app].
  do 4 (split; [done|]).
  intros x. rewrite list_elem_of_filter. tauto.
Qed.

Lemma parseFormula_vars_occurrences_witness :
  parseFormula Sample.mathjs "a + pi + b + a"
  = Ok {| text := "a + pi + b + a";
          expr := OperatorNode "+"
                    [OperatorNode "+"
                       [OperatorNode "+" [SymbolNode "a"; SymbolNode "pi"];
                        SymbolNode "b"];
                     SymbolNode "a"];
          vars := ["a"; "b"; "a"] |}
  ∧ ∃ parsed,
      parse Sample.mathjs "a + pi + b + a" = Ok parsed ∧
      "a + pi + b + a" = "a + pi + b + a" ∧
      OperatorNode "+"
        [OperatorNode "+"
           [OperatorNode "+" [SymbolNode "a"; SymbolNode "pi"]; SymbolNode "b"];
         SymbolNode "a"] = parsed ∧
      ["a"; "b"; "a"]
      = filter (λ x, notReserved Sample.mathjs x) (symbols parsed) ∧
      (∀ x, x ∈ ["a"; "b"; "a"]
            ↔ x ∈ symbols parsed ∧ notReserved Sample.mathjs x).
Proof.
  split; [vm_compute; reflexivity|].
  apply (parseFormula_vars_occurrences Sample.mathjs "a + pi + b + a"
           {| text := "a + pi + b + a";
              expr := OperatorNode "+"
                        [OperatorNode "+"
                           [OperatorNode "+" [SymbolNode "a"; SymbolNode "pi"];
                            SymbolNode "b"];
                         SymbolNode "a"];
              vars := ["a"; "b"; "a"] |}).
  vm_compute; reflexivity.
Defined.

(** C1, as stated, fails: a name that occurs twice is listed twice. *)
Lemma parseFormula_vars_keep_duplicates :
  ∃ f, parseFormula Sample.mathjs "x + x" = Ok f
       ∧ vars f = ["x"; "x"]
       ∧ ¬ NoDup (vars f).
Proof.
  eexists. split; [vm_compute; reflexivity|]. split; [done|].
  cbn. intros Hnd. apply NoDup_cons in Hnd as [Hx _].
  apply Hx. by left.
Qed.

(** ** Removal *)

Lemma omit_lookup {V} (names : R.ArrayLike) (obj : gmap string V) (k : string) :
  R.omit names obj !! k = if decide (k ∈ R.indexed names) then None else obj !! k.
Proof.
  unfold R.omit. destruct (decide (k ∈ R.indexed names)) as [Hk|Hk].
  - apply map_lookup_filter_None. right. intros v _ Hn. by apply Hn.
  - destruct (obj !! k) as [v|] eqn:E.
    + by apply map_lookup_filter_Some.
    + apply map_lookup_filter_None. by left.
Qed.

Lemma removeReducer_lookup {V} (c : string) (obj : gmap string V) (k : string) :
  removeReducer c obj !! k = if decide (k ∈ js_chars c) then None else obj !! k.
Proof. apply omit_lookup. Qed.

(** Called with the array of one name, [R.omit] takes out that key and no
    other. *)
Lemma omit_array_singleton {V} (c : string) (obj : gmap string V) :
  R.omit (R.JsArray [c]) obj = delete c obj.
Proof.
  apply map_eq. intros k. rewrite omit_lookup. cbn [R.indexed].
  destruct (decide (k = c)) as [->|Hk].
  - rewrite decide_True by (by left). by rewrite lookup_delete_eq.
  - rewrite decide_False.
    + by rewrite lookup_delete_ne.
    + intros Hin. apply list_elem_of_singleton in Hin. done.
Qed.

(** A name of one character is evicted, and nothing else is. *)
Lemma removeReducer_one_char {V} (a : ascii) (obj : gmap string V) :
  removeReducer (String a EmptyString) obj = delete (String a EmptyString) obj.
Proof.
  apply map_eq. intros k. rewrite removeReducer_lookup. cbn [js_chars].
  destruct (decide (k = String a EmptyString)) as [->|Hk].
  - rewrite decide_True by (by left). by rewrite lookup_delete_eq.
  - rewrite decide_False.
    + by rewrite lookup_delete_ne.
    + intros Hin. apply list_elem_of_singleton in Hin. done.
Qed.

(** C2 on the sheet [{a: "1", ab: "a + 1"}]: a click on the remove button
    of the cell [ab] sends the name [ab]; the reducer built from it takes
    the key [a] out of both mappings and leaves the key [ab] in. *)
Lemma remove_click_evicts_letters_of_name :
  let M : PersistedState := {[ "a" := "1"; "ab" := "a + 1" ]} in
  let sent := (Item Sample.mathjs 1 (Some ("ab", "a + 1")) [removeClick]).1.2 in
  sent = [target "ab" "a + 1" (value_ 1); remove "ab"]
  ∧ last (storage_states M sent) = Some {[ "ab" := "a + 1" ]}
  ∧ last (scope_ (target "a" "1" (value_ 0) :: sent)) = Some {[ "ab" := value_ 1 ]}.
Proof. vm_compute. done. Qed.

(** ** Bootstrap *)

Section Bootstrap_facts.
Context (math : MathJs).

(** A restored cell publishes its payload once when the formula
    compiles, and nothing otherwise. *)
Lemma restored_signals (i : nat) (k v : string) :
  (Item math i (Some (k, v)) []).1.2
  = match parseFormula math v with
    | Ok _ => [target k v (value_ i)]
    | Throw _ => []
    end.
Proof.
  unfold Item, Item_run, Item_step, name_step, formula_step, compile,
    R.tryCatch, parseError, remove_step, fresh.
  cbn -[parseFormula].
  destruct (parseFormula math v) as [f|e] eqn:E; cbn; [|done].
  unfold formulaText. unfold parseFormula in E.
  destruct (parse math v); [|done]. by injection E as <-.
Qed.

Lemma bootstrap_elem (M : PersistedState) (s : signal) :
  s ∈ bootstrap math M ↔
  ∃ i k v f, map_to_list M !! i = Some (k, v)
             ∧ parseFormula math v = Ok f
             ∧ s = target k v (value_ i).
Proof.
  unfold bootstrap, restored, asCollection, asCollection_of.
  rewrite list_elem_of_join. split.
  - intros (l & Hs & Hl).
    apply list_elem_of_fmap in Hl as (c & -> & Hc).
    apply elem_of_lookup_imap in Hc as (i & p & -> & Hp).
    rewrite list_lookup_fmap in Hp.
    destruct (map_to_list M !! i) as [[k v]|] eqn:E; [|done].
    injection Hp as <-. cbn [fst snd] in Hs.
    rewrite restored_signals in Hs.
    destruct (parseFormula math v) as [f|e] eqn:Ef.
    + apply list_elem_of_singleton in Hs. by exists i, k, v, f.
    + by apply elem_of_nil in Hs.
  - intros (i & k & v & f & Hi & Hf & ->).
    exists [target k v (value_ i)]. split; [by left|].
    apply list_elem_of_fmap.
    exists (Item math i (Some (k, v)) []). split.
    + by rewrite restored_signals, Hf.
    + apply (elem_of_lookup_imap_2 (λ i initial_, Item math i initial_ [])).
      by rewrite list_lookup_fmap, Hi.
Qed.

Lemma fold_fixed {A B} (f : B → A → B) (seed : B) (l : list A) :
  Forall (λ a, f seed a = seed) l →
  Forall (λ b, b = seed) (xs.fold f seed l).
Proof.
  induction 1 as [|a l Ha _ IH]; cbn [xs.fold].
  - by constructor.
  - constructor; [done|]. rewrite Ha. by destruct l.
Qed.

Lemma uniq_constant {A} `{EqDecision A} (x : A) (l : list A) :
  Forall (λ y, y = x) l → uniq (x :: l) = [x].
Proof.
  intros Hl. unfold uniq, xs.dropRepeats. cbn [xs.dropRepeats_from xs.repeats].
  f_equal.
  induction Hl as [|y l -> _ IH]; [done|].
  cbn [xs.dropRepeats_from]. rewrite repeats_equals.
  by rewrite bool_decide_eq_true_2.
Qed.

Lemma bootstrap_fixes (M : PersistedState) :
  Forall (λ r : PersistedState → PersistedState, r M = M)
    (storageReducer <$> bootstrap math M).
Proof.
  apply Forall_fmap, Forall_forall. intros s Hs.
  apply bootstrap_elem in Hs as (i & k & v & f & Hi & _ & ->).
  cbn. unfold formulaReducer, R.set. cbn.
  apply insert_id, elem_of_map_to_list, list_elem_of_lookup. by exists i.
Qed.

End Bootstrap_facts.

(** C3: a sheet bootstrapped from the mapping [M] keeps [M] as its
    persisted state: every state of the fold is [M], the single write
    request carries [M], and every entry whose formula compiles is
    published again by its restored cell. *)
Theorem bootstrap_roundtrip (math : MathJs) (stringify : PersistedState → string)
    (M : PersistedState) :
  Forall (λ s, s = M) (storage_states M (bootstrap math M))
  ∧ last (storage_states M (bootstrap math M)) = Some M
  ∧ storage_ stringify M (bootstrap math M)
    = [{| key := "formulas"; value := stringify M |}]
  ∧ (∀ k v f, M !! k = Some v → parseFormula math v = Ok f →
       ∃ i, target k v (value_ i) ∈ bootstrap math M).
Proof.
  pose proof (bootstrap_fixes math M) as Hfix.
  assert (Hall : Forall (λ s, s = M) (storage_states M (bootstrap math M))).
  { unfold storage_states. by apply fold_fixed. }
  split; [done|]. split; [|split].
  - destruct (last (storage_states M (bootstrap math M))) as [s|] eqn:E.
    + apply last_Some_elem_of in E.
      rewrite Forall_forall in Hall. by rewrite (Hall s E).
    + apply last_None in E. unfold storage_states in E.
      by destruct (storageReducer <$> bootstrap math M).
  - unfold storage_, requests.
    unfold storage_states in *.
    destruct (storageReducer <$> bootstrap math M) as [|r rs] eqn:E.
    + done.
    + cbn [xs.fold] in *. apply Forall_cons in Hall as [_ Hall].
      by rewrite uniq_constant.
  - intros k v f Hk Hf.
    apply elem_of_map_to_list, list_elem_of_lookup in Hk as [i Hi].
    exists i. apply bootstrap_elem. by exists i, k, v, f.
Qed.

(** ** Scope lens *)

Lemma mapM_fmap_compose {A B C} (f : B → option C) (g : A → B) (l : list A) :
  mapM f (g <$> l) = mapM (f ∘ g) l.
Proof. induction l as [|a l IH]; [done|]. cbn. by rewrite IH. Qed.

Lemma mapM_ext_elem {A B} (f g : A → option B) (l : list A) :
  (∀ x, x ∈ l → f x = g x) → mapM f l = mapM g l.
Proof.
  induction l as [|a l IH]; intros Hfg; [done|]. cbn.
  rewrite (Hfg a) by (by left). rewrite IH; [done|].
  intros x Hx. apply Hfg. by right.
Qed.

Lemma zipObj_lookup {V} (h : string → option V) (ks : list string) (vs : list V)
    (x : string) :
  mapM h ks = Some vs →
  R.zipObj ks vs !! x = if decide (x ∈ ks) then h x else None.
Proof.
  intros Hm. apply mapM_Some_1 in Hm. unfold R.zipObj.
  assert (Hgen : ∀ acc : gmap string V,
    fold_left (λ out kv, <[kv.1 := kv.2]> out) (zip ks vs) acc !! x
    = if decide (x ∈ ks) then h x else acc !! x).
  { induction Hm as [|k v ks vs Hk _ IH]; intros acc.
    - cbn. rewrite decide_False; [done|]. apply not_elem_of_nil.
    - cbn [zip zip_with fold_left fst snd]. rewrite IH.
      destruct (decide (x ∈ ks)) as [Hin|Hin].
      + rewrite decide_True; [done|]. by right.
      + destruct (decide (x = k)) as [->|Hne].
        * rewrite decide_True by (by left). by rewrite lookup_insert_eq.
        * rewrite decide_False.
          -- by rewrite lookup_insert_ne.
          -- intros [?|?]%elem_of_cons; done. }
  rewrite Hgen. case_decide; [done|]. apply lookup_empty.
Qed.

Lemma mapM_bind {A B C} (g : A → option B) (k : B → option C) (l : list A) :
  mapM (λ x, g x ≫= k) l = mapM g l ≫= mapM k.
Proof.
  induction l as [|a l IH]; [done|]. cbn. rewrite IH.
  destruct (g a) as [b|]; cbn; [|done].
  destruct (mapM g l) as [bs|]; cbn; [done|]. by destruct (k b).
Qed.

Lemma prop_insert_ne {V} (x y : string) (v : V) (obj : gmap string V) :
  x ≠ y → R.prop x (<[y := v]> obj) = R.prop x obj.
Proof. intros Hne. unfold R.prop. by rewrite lookup_insert_ne. Qed.

Lemma prop_delete_ne {V} (x y : string) (obj : gmap string V) :
  x ≠ y → R.prop x (delete y obj) = R.prop x obj.
Proof. intros Hne. unfold R.prop. by rewrite lookup_delete_ne. Qed.

Lemma narrow_lookup_value (vars : list string) (w : World) :
  narrow vars w = R.zipObj vars <$> mapM (lookup_value w) vars.
Proof.
  unfold narrow, narrowed, combine, R.props, lookup_value.
  rewrite mapM_bind, !mapM_fmap_compose.
  destruct (mapM _ vars) as [streams|]; cbn; [|done].
  by destruct (mapM (latest (memory w)) streams).
Qed.

Lemma narrow_agree (vars : list string) (w w' : World) :
  agree_on vars w w' → narrow vars w = narrow vars w'.
Proof.
  intros Hagree. rewrite !narrow_lookup_value.
  by rewrite (mapM_ext_elem _ (lookup_value w') vars).
Qed.

Lemma narrow_lookup (vars : list string) (w : World) (snap : Snapshot) (x : string) :
  narrow vars w = Some snap →
  snap !! x = if decide (x ∈ vars) then lookup_value w x else None.
Proof.
  rewrite narrow_lookup_value. intros Hn.
  destruct (mapM (lookup_value w) vars) as [vs|] eqn:E; [|done].
  injection Hn as <-. by apply zipObj_lookup.
Qed.

Lemma narrow_available (vars : list string) (w : World) :
  (∀ x, x ∈ vars → is_Some (lookup_value w x)) → is_Some (narrow vars w).
Proof.
  intros Hall. rewrite narrow_lookup_value.
  assert (is_Some (mapM (lookup_value w) vars)) as [vs ->]; [|by eexists].
  induction vars as [|x vars IH]; [by eexists|]. cbn.
  destruct (Hall x) as [v ->]; [by left|].
  destruct IH as [vs ->]; [|by eexists].
  intros y Hy. apply Hall. by right.
Qed.

(** An unrelated entry of the scope object is replaced or taken out, or
    the value of a cell the formula does not read changes. *)
Lemma agree_on_insert (vars : list string) (w : World) (y : string) (r : Stream) :
  y ∉ vars →
  agree_on vars w {| scope := <[y := r]> (scope w); memory := memory w |}.
Proof.
  intros Hy x Hx. unfold lookup_value. cbn [scope memory].
  rewrite prop_insert_ne; [done|]. by intros ->.
Qed.

Lemma agree_on_delete (vars : list string) (w : World) (y : string) :
  y ∉ vars →
  agree_on vars w {| scope := delete y (scope w); memory := memory w |}.
Proof.
  intros Hy x Hx. unfold lookup_value. cbn [scope memory].
  rewrite prop_delete_ne; [done|]. by intros ->.
Qed.

Lemma agree_on_memory (vars : list string) (w : World) (j : nat) (v : JSValue) :
  (∀ x, x ∈ vars → scope w !! x ≠ Some (value_ j)) →
  agree_on vars w {| scope := scope w; memory := <[j := v]> (memory w) |}.
Proof.
  intros Hj x Hx. unfold lookup_value, R.prop. cbn [scope memory].
  destruct (scope w !! x) as [[|i]|] eqn:E; cbn; [done| |].
  - rewrite lookup_insert_ne; [done|]. intros ->. by apply (Hj x).
  - by case_bool_decide.
Qed.

Lemma snoc2 {A} (l : list A) (a b : A) : l ++ [a; b] = (l ++ [a]) ++ [b].
Proof. by rewrite <- app_assoc. Qed.

Lemma omap_snoc {A B} (g : A → option B) (l : list A) (a : A) :
  omap g (l ++ [a]) = omap g l ++ option_list (g a).
Proof. rewrite omap_app. cbn. by destruct (g a). Qed.

Lemma lensScope_unrelated (vars : list string) (ws : list World) (w w' : World) :
  agree_on vars w w' →
  lensScope vars (ws ++ [w; w']) = lensScope vars (ws ++ [w]).
Proof.
  intros Hagree%narrow_agree. unfold lensScope.
  rewrite snoc2, (omap_snoc _ (ws ++ [w])), <- Hagree.
  destruct (narrow vars w) as [s|] eqn:E; cbn.
  - apply uniq_snoc_same. rewrite omap_snoc, E. apply last_snoc.
  - by rewrite app_nil_r.
Qed.

Lemma lensScope_changed (vars : list string) (ws : list World) (w w' : World)
    (s s' : Snapshot) :
  narrow vars w = Some s → narrow vars w' = Some s' → s ≠ s' →
  lensScope vars (ws ++ [w; w']) = lensScope vars (ws ++ [w]) ++ [s'].
Proof.
  intros Hs Hs' Hne. unfold lensScope.
  rewrite snoc2, (omap_snoc _ (ws ++ [w])), Hs'. cbn.
  apply uniq_snoc_new. rewrite omap_snoc, Hs. cbn.
  rewrite last_snoc. congruence.
Qed.

Lemma mapC_unfold {A B} (f : A → Console B) (l : list A) :
  mapC f l = ((λ a, (f a).1) <$> l, mjoin ((λ a, (f a).2) <$> l)).
Proof.
  induction l as [|a l IH]; [done|]. cbn [mapC]. rewrite IH.
  unfold bind, ret. cbn. destruct (f a) as [b log]. cbn.
  by rewrite app_nil_r.
Qed.

Lemma value_of_unfold (math : MathJs) (f : Formula) (snaps : list Snapshot) :
  value_of math f snaps
  = (uniq ((λ s, (evaluate math f s).1) <$> snaps),
     mjoin ((λ s, (evaluate math f s).2) <$> snaps)).
Proof.
  unfold value_of. rewrite mapC_unfold. unfold bind, ret. cbn.
  by rewrite app_nil_r.
Qed.

(** C4: between two instants that agree on what the variables of the
    formula read (in particular after any change to an entry [y] outside
    [vars]) the lens emits nothing, the expression is not evaluated again
    and [value$] emits and logs nothing new; when the value read for a
    variable [x] changes, the lens emits the new snapshot, [value$] runs
    the compiled expression on it, and the value the cell then holds is
    the result of that evaluation ([undefined] with a warning when it
    throws); two consecutive snapshots out of the lens are never equal. *)
Theorem lensScope_dependency_narrowing (math : MathJs) (f : Formula)
    (ws : list World) (w w' : World) :
  (agree_on (vars f) w w' →
     lensScope (vars f) (ws ++ [w; w']) = lensScope (vars f) (ws ++ [w])
     ∧ mapC (evaluate math f) (lensScope (vars f) (ws ++ [w; w']))
       = mapC (evaluate math f) (lensScope (vars f) (ws ++ [w]))
     ∧ value_inner math f (ws ++ [w; w']) = value_inner math f (ws ++ [w]))
  ∧ (∀ y r, y ∉ vars f →
       agree_on (vars f) w {| scope := <[y := r]> (scope w); memory := memory w |}
       ∧ agree_on (vars f) w {| scope := delete y (scope w); memory := memory w |})
  ∧ (∀ x v v' s',
       x ∈ vars f → is_Some (narrow (vars f) w) → narrow (vars f) w' = Some s' →
       lookup_value w x = Some v → lookup_value w' x = Some v' → v ≠ v' →
       lensScope (vars f) (ws ++ [w; w']) = lensScope (vars f) (ws ++ [w]) ++ [s']
       ∧ s' !! x = Some v'
       ∧ (mapC (evaluate math f) (lensScope (vars f) (ws ++ [w; w']))).1
         = (mapC (evaluate math f) (lensScope (vars f) (ws ++ [w]))).1
           ++ [(evaluate math f s').1]
       ∧ value_inner math f (ws ++ [w; w'])
         = value_of math f (lensScope (vars f) (ws ++ [w]) ++ [s'])
       ∧ xs.remember (value_inner math f (ws ++ [w; w'])).1
         = Some (match eval math (expr f) s' with
                 | Ok result => result
                 | Throw _ => VUndefined
                 end)
       ∧ (value_inner math f (ws ++ [w; w'])).2
         = (value_inner math f (ws ++ [w])).2
           ++ match eval math (expr f) s' with
              | Ok _ => []
              | Throw e => [EvalWarning e s']
              end)
  ∧ (∀ i s1 s2,
       lensScope (vars f) ws !! i = Some s1 →
       lensScope (vars f) ws !! S i = Some s2 → s1 ≠ s2).
Proof.
  split; [|split; [|split]].
  - intros Hagree. unfold value_inner.
    rewrite (lensScope_unrelated _ _ _ _ Hagree). done.
  - intros y r Hy. split; [by apply agree_on_insert|by apply agree_on_delete].
  - intros x v v' s' Hx [s Hs] Hs' Hv Hv' Hne.
    assert (Hsx : s !! x = Some v).
    { rewrite (narrow_lookup _ _ _ x Hs), decide_True by done. done. }
    assert (Hsx' : s' !! x = Some v').
    { rewrite (narrow_lookup _ _ _ x Hs'), decide_True by done. done. }
    assert (s ≠ s') by (intros ->; congruence).
    unfold value_inner.
    rewrite (lensScope_changed _ _ _ _ s s') by done.
    split; [done|]. split; [done|].
    split; [rewrite !mapC_unfold; cbn [fst]; by rewrite fmap_app|].
    split; [done|]. rewrite !value_of_unfold. cbn [fst snd]. split.
    + unfold xs.remember. rewrite last_uniq, fmap_last, last_snoc. cbn.
      unfold evaluate, R.tryCatch. by destruct (eval math (expr f) s').
    + rewrite fmap_app, join_app. cbn. rewrite app_nil_r.
      unfold evaluate, R.tryCatch. by destruct (eval math (expr f) s').
  - intros i s1 s2. apply uniq_adjacent.
Qed.

Lemma lensScope_dependency_narrowing_witness :
  (agree_on ["x"] (Sample.sheet 1 5) (Sample.sheet 1 6)
   ∧ lensScope ["x"] ([] ++ [Sample.sheet 1 5; Sample.sheet 1 6])
     = lensScope ["x"] ([] ++ [Sample.sheet 1 5])
   ∧ value_inner Sample.mathjs Sample.x_plus_1
       ([] ++ [Sample.sheet 1 5; Sample.sheet 1 6])
     = ([VNumber 2], []))
  ∧ (lookup_value (Sample.sheet 1 5) "x" = Some (VNumber 1)
     ∧ lookup_value (Sample.sheet 2 5) "x" = Some (VNumber 2)
     ∧ lensScope ["x"] ([] ++ [Sample.sheet 1 5; Sample.sheet 2 5])
       = lensScope ["x"] ([] ++ [Sample.sheet 1 5]) ++ [{[ "x" := VNumber 2 ]}]
     ∧ xs.remember
         (value_inner Sample.mathjs Sample.x_plus_1
            ([] ++ [Sample.sheet 1 5; Sample.sheet 2 5])).1
       = Some (VNumber 3)).
Proof.
  assert (Hagree : agree_on ["x"] (Sample.sheet 1 5) (Sample.sheet 1 6)).
  { intros x Hx. apply list_elem_of_singleton in Hx. subst x. reflexivity. }
  split.
  - destruct (lensScope_dependency_narrowing Sample.mathjs Sample.x_plus_1 []
                (Sample.sheet 1 5) (Sample.sheet 1 6)) as (Hsame & _).
    destruct (Hsame Hagree) as (Hlens & _ & Hvalue).
    split; [exact Hagree|]. split; [exact Hlens|].
    rewrite Hvalue. vm_compute. reflexivity.
  - destruct (lensScope_dependency_narrowing Sample.mathjs Sample.x_plus_1 []
                (Sample.sheet 1 5) (Sample.sheet 2 5)) as (_ & _ & Hchanged & _).
    destruct (Hchanged "x" (VNumber 1) (VNumber 2) {[ "x" := VNumber 2 ]})
      as (Hlens & _ & _ & _ & Hvalue & _).
    + cbn. left.
    + eexists. vm_compute. reflexivity.
    + vm_compute. reflexivity.
    + reflexivity.
    + reflexivity.
    + discriminate.
    + split; [reflexivity|]. split; [reflexivity|]. split; [exact Hlens|].
      rewrite Hvalue. vm_compute. reflexivity.
Defined.

(** ** Evaluation *)

Lemma evaluate_throw (math : MathJs) (f : Formula) (s : Snapshot) (e : error) :
  eval math (expr f) s = Throw e →
  evaluate math f s = (VUndefined, [EvalWarning e s]).
Proof. intros He. unfold evaluate, R.tryCatch. by rewrite He. Qed.

Lemma evaluate_ok (math : MathJs) (f : Formula) (s : Snapshot) (v : JSValue) :
  eval math (expr f) s = Ok v → evaluate math f s = (v, []).
Proof. intros He. unfold evaluate, R.tryCatch. by rewrite He. Qed.

(** C6: when the evaluation of an accepted formula throws on a snapshot,
    the call returns [undefined] and logs one diagnostic; [undefined] is
    then the value the cell holds; a later snapshot on which the
    evaluation succeeds yields that result, with no further diagnostic. *)
Theorem evaluation_failure_is_undefined (math : MathJs) (f : Formula)
    (snaps : list Snapshot) (s : Snapshot) (e : error) :
  eval math (expr f) s = Throw e →
  evaluate math f s = (VUndefined, [EvalWarning e s])
  ∧ xs.remember (value_of math f (snaps ++ [s])).1 = Some VUndefined
  ∧ (value_of math f (snaps ++ [s])).2
    = (value_of math f snaps).2 ++ [EvalWarning e s]
  ∧ (∀ s' v', eval math (expr f) s' = Ok v' →
       xs.remember (value_of math f (snaps ++ [s; s'])).1 = Some v'
       ∧ (value_of math f (snaps ++ [s; s'])).2
         = (value_of math f (snaps ++ [s])).2).
Proof.
  intros He. pose proof (evaluate_throw math f s e He) as Hs.
  split; [done|]. rewrite !value_of_unfold. cbn [fst snd]. unfold xs.remember.
  split; [|split].
  - rewrite last_uniq, fmap_last, last_snoc. cbn. by rewrite Hs.
  - rewrite fmap_app, join_app. cbn. rewrite Hs. cbn. done.
  - intros s' v' Hok. pose proof (evaluate_ok math f s' v' Hok) as Hs'.
    rewrite !value_of_unfold. cbn [fst snd]. split.
    + rewrite last_uniq, snoc2, fmap_last, last_snoc. cbn. by rewrite Hs'.
    + rewrite snoc2, (fmap_app _ (snaps ++ [s])), join_app. cbn.
      rewrite Hs'. cbn. by rewrite app_nil_r.
Qed.

Lemma evaluation_failure_is_undefined_witness :
  eval Sample.mathjs (expr Sample.x_plus_1) {[ "x" := VUndefined ]}
  = Throw "Unexpected type of argument in function add"
  ∧ xs.remember
      (value_of Sample.mathjs Sample.x_plus_1
         ([{[ "x" := VNumber 1 ]}] ++ [{[ "x" := VUndefined ]}])).1
    = Some VUndefined.
Proof.
  split; [reflexivity|].
  apply (evaluation_failure_is_undefined Sample.mathjs Sample.x_plus_1
           [{[ "x" := VNumber 1 ]}] {[ "x" := VUndefined ]}
           "Unexpected type of argument in function add").
  reflexivity.
Defined.

(** For the names that [Object.prototype] does not have: when every
    variable that has an entry in the scope has a value, the lens emits a
    snapshot, and in it every variable without an entry is bound to
    [undefined]; the snapshot goes to the evaluation like any other, and
    no diagnostic is logged unless the evaluation itself throws. *)
Lemma lensScope_missing_own_variable (math : MathJs) (f : Formula) (w : World) :
  (∀ x, x ∈ vars f → x ∉ R.Object_prototype) →
  (∀ x i, x ∈ vars f → scope w !! x = Some (value_ i) → is_Some (memory w !! i)) →
  ∃ snap,
    narrowed (vars f) w = Ok (Some snap)
    ∧ lensScope (vars f) [w] = [snap]
    ∧ (∀ x, x ∈ vars f → scope w !! x = None → snap !! x = Some VUndefined)
    ∧ value_inner math f [w] = value_of math f [snap]
    ∧ (∀ v, eval math (expr f) snap = Ok v → value_inner math f [w] = ([v], [])).
Proof.
  intros Hnames Hmem.
  destruct (narrow_available (vars f) w) as [snap Hsnap].
  { intros x Hx. unfold lookup_value, R.prop.
    destruct (scope w !! x) as [[|i]|] eqn:E; cbn; [by eexists| |].
    - by apply (Hmem x i).
    - rewrite bool_decide_eq_false_2 by (by apply Hnames). by eexists. }
  assert (Hlens : lensScope (vars f) [w] = [snap]).
  { unfold lensScope. cbn. rewrite Hsnap. reflexivity. }
  exists snap. split; [|split; [done|split; [|split]]].
  - unfold narrow in Hsnap. destruct (narrowed (vars f) w) as [o|e]; [|done].
    by rewrite Hsnap.
  - intros x Hx Hnone.
    rewrite (narrow_lookup _ _ _ x Hsnap), decide_True by done.
    unfold lookup_value, R.prop. rewrite Hnone.
    by rewrite bool_decide_eq_false_2 by (by apply Hnames).
  - unfold value_inner. by rewrite Hlens.
  - intros v Hv. unfold value_inner. rewrite Hlens, value_of_unfold. cbn.
    by rewrite (evaluate_ok math f snap v Hv).
Qed.

Example lensScope_missing_own_variable_run :
  narrowed (vars Sample.x_plus_y) (Sample.sheet_without_x 5)
  = Ok (Some {[ "x" := VUndefined; "y" := VNumber 5 ]})
  ∧ value_inner Sample.mathjs Sample.x_plus_y [Sample.sheet_without_x 5]
    = ([VUndefined],
       [EvalWarning "Unexpected type of argument in function add"
          {[ "x" := VUndefined; "y" := VNumber 5 ]}]).
Proof. split; vm_compute; reflexivity. Qed.

(** C7 on the formula [toString + 1] in a sheet that has no cell named
    [toString]: the name is a free variable of the formula and is absent
    from the scope, yet [R.props] reads the function every object inherits
    under that name, [R.when] leaves it in place, and [xs.combine] raises
    on it: the lens emits no snapshot, so the name is not bound to
    [undefined] and the cell gets no value.  A name that no object
    inherits, such as [z], is bound to [undefined] as the claim says. *)
Lemma lensScope_inherited_name_raises :
  parseFormula Sample.mathjs "toString + 1"
  = Ok {| text := "toString + 1";
          expr := OperatorNode "+" [SymbolNode "toString"; ConstantNode 1];
          vars := ["toString"] |}
  ∧ R.props ["toString"] (scope (Sample.sheet 1 5)) = [R.inherited "toString"]
  ∧ narrowed ["toString"] (Sample.sheet 1 5) = Throw "s[i]._add is not a function"
  ∧ lensScope ["toString"] [Sample.sheet 1 5; Sample.sheet 2 5] = []
  ∧ value_inner Sample.mathjs
      {| text := "toString + 1";
         expr := OperatorNode "+" [SymbolNode "toString"; ConstantNode 1];
         vars := ["toString"] |} [Sample.sheet 1 5; Sample.sheet 2 5]
    = ([], [])
  ∧ narrowed ["z"] (Sample.sheet 1 5) = Ok (Some {[ "z" := VUndefined ]}).
Proof. repeat split; vm_compute; reflexivity. Qed.

(** ** Cells *)

Lemma bind_unfold {A B} (m : Console A) (k : A → Console B) :
  m >>= k = ((k m.1).1, m.2 ++ (k m.1).2).
Proof. unfold bind. destruct m as [a l1]. cbn. by destruct (k a). Qed.

Section Item_facts.
Context (math : MathJs) (id : nat).

Lemma compile_throw (t : string) (e : error) :
  parse math t = Throw e → compile math t = (None, [ParseWarning e t]).
Proof.
  intros Hp. unfold compile, R.tryCatch, parseFormula. by rewrite Hp.
Qed.

Lemma compile_ok (t : string) (parsed : Node) :
  parse math t = Ok parsed →
  ∃ f, compile math t = (Some f, []) ∧ text f = t ∧ parseFormula math t = Ok f.
Proof.
  intros Hp. unfold compile, R.tryCatch, parseFormula. rewrite Hp.
  by eexists.
Qed.

Lemma name_step_formula (st : ItemState) (n : string) :
  formulaRaw (name_step id st n).1 = formulaRaw st
  ∧ formula_ (name_step id st n).1 = formula_ st.
Proof. unfold name_step. by destruct (xs.repeats R.equals (name_ st) n). Qed.

Lemma formula_step_logged (st : ItemState) (t : string) (log : list diagnostic) :
  logged math st log →
  logged math (formula_step math id st t).1.1 (log ++ (formula_step math id st t).2).
Proof.
  intros Hlog. unfold formula_step. rewrite repeats_equals.
  case_bool_decide as Hraw.
  - cbn. by rewrite app_nil_r.
  - destruct (parse math t) as [parsed|e] eqn:Hp.
    + destruct (compile_ok t parsed Hp) as (f & -> & _ & _). cbn.
      intros t' e' [= <-] Ht'. congruence.
    + rewrite (compile_throw t e Hp). cbn.
      intros t' e' [= <-] Ht'. apply elem_of_app. right.
      rewrite Hp in Ht'. injection Ht' as <-. by left.
Qed.

Lemma Item_step_logged (st : ItemState) (ev : ItemEvent) (log : list diagnostic) :
  logged math st log →
  logged math (Item_step math id st ev).1.1 (log ++ (Item_step math id st ev).2).
Proof.
  intros Hlog. destruct ev as [n f|v|v|]; cbn [Item_step].
  - destruct (name_step id (remove_step st n) n) as [st1 out1] eqn:E.
    rewrite bind_unfold. cbn. rewrite app_nil_r.
    apply formula_step_logged.
    pose proof (name_step_formula (remove_step st n) n) as [Hraw _].
    rewrite E in Hraw. cbn [fst] in Hraw.
    intros t e Ht. apply Hlog. rewrite Hraw in Ht. exact Ht.
  - destruct (nameChanges math v) as [n|]; cbn; rewrite app_nil_r; [|done].
    pose proof (name_step_formula (remove_step st n) n) as [Hraw _].
    intros t e Ht. apply Hlog. rewrite Hraw in Ht. exact Ht.
  - by apply formula_step_logged.
  - cbn. by rewrite app_nil_r.
Qed.

Lemma Item_run_logged (st : ItemState) (evs : list ItemEvent) (log : list diagnostic) :
  logged math st log →
  logged math (Item_run math id st evs).1.1 (log ++ (Item_run math id st evs).2).
Proof.
  revert st log. induction evs as [|ev evs IH]; intros st log Hlog.
  - cbn. by rewrite app_nil_r.
  - cbn [Item_run]. rewrite !bind_unfold. cbn. rewrite app_nil_r, app_assoc.
    apply IH. by apply Item_step_logged.
Qed.

Lemma fresh_logged : logged math fresh [].
Proof. intros t e Ht. discriminate Ht. Qed.

End Item_facts.

(** C5: a formula edit whose text does not parse compiles to the invalid
    formula with a diagnostic; the cell keeps the formula it had accepted
    and its name, sends nothing to its parent, so that neither fold
    changes, and the diagnostic of that text is in the console log (logged
    by this edit, unless the same text was the previous edit and was
    logged then). *)
Theorem invalid_formula_is_dropped (math : MathJs) (id : nat)
    (evs : list ItemEvent) (t : string) (e : error) :
  parse math t = Throw e →
  let before := Item_run math id fresh evs in
  let after := Item_step math id before.1.1 (formulaInput t) in
  compile math t = (None, [ParseWarning e t])
  ∧ formula_ after.1.1 = formula_ before.1.1
  ∧ name_ after.1.1 = name_ before.1.1
  ∧ after.1.2 = []
  ∧ (∀ M sent, storage_states M (sent ++ after.1.2) = storage_states M sent
               ∧ scope_ (sent ++ after.1.2) = scope_ sent)
  ∧ ParseWarning e t ∈ before.2 ++ after.2
  ∧ (formulaRaw before.1.1 ≠ Some t → after.2 = [ParseWarning e t]).
Proof.
  intros Hp before after.
  pose proof (compile_throw math t e Hp) as Hc.
  assert (Hlog : logged math after.1.1 (before.2 ++ after.2)).
  { subst after. apply Item_step_logged. subst before.
    apply (Item_run_logged math id fresh evs []), fresh_logged. }
  assert (Hraw : formulaRaw after.1.1 = Some t).
  { subst after. cbn [Item_step]. unfold formula_step.
    rewrite repeats_equals. case_bool_decide as Hr; [done|]. by rewrite Hc. }
  assert (Hout : after.1.2 = []).
  { subst after. cbn [Item_step]. unfold formula_step.
    rewrite repeats_equals. case_bool_decide as Hr; [done|]. by rewrite Hc. }
  split; [done|]. split; [|split; [|split; [done|split; [|split]]]].
  - subst after. cbn [Item_step]. unfold formula_step.
    rewrite repeats_equals. case_bool_decide as Hr; [done|]. by rewrite Hc.
  - subst after. cbn [Item_step]. unfold formula_step.
    rewrite repeats_equals. case_bool_decide as Hr; [done|]. by rewrite Hc.
  - intros M sent. by rewrite Hout, app_nil_r.
  - by apply (Hlog t e).
  - intros Hne. subst after. cbn [Item_step]. unfold formula_step.
    rewrite repeats_equals, bool_decide_eq_false_2 by done. by rewrite Hc.
Qed.

Lemma invalid_formula_is_dropped_witness :
  parse Sample.mathjs "1 +" = Throw "Unexpected end of expression"
  ∧ (Item_run Sample.mathjs 0 fresh [initial "a" "1"; formulaInput "1 +"]).1.1
    = {| name_ := Some "a"; formulaRaw := Some "1 +";
         formula_ := Some {| text := "1"; expr := ConstantNode 1; vars := [] |};
         removeName := "a" |}
  ∧ ParseWarning "Unexpected end of expression" "1 +"
    ∈ (Item_run Sample.mathjs 0 fresh [initial "a" "1"]).2
      ++ (Item_step Sample.mathjs 0
            (Item_run Sample.mathjs 0 fresh [initial "a" "1"]).1.1
            (formulaInput "1 +")).2.
Proof.
  split; [reflexivity|]. split; [vm_compute; reflexivity|].
  apply (invalid_formula_is_dropped Sample.mathjs 0 [initial "a" "1"] "1 +"
           "Unexpected end of expression").
  reflexivity.
Defined.

(** C10: the payload of a restored cell sets its name whatever the name
    is, the empty string and the reserved names included, and the cell is
    published under that name as soon as its formula compiles; a name
    typed into the field is discarded when it is empty or reserved. *)
Theorem restored_name_is_unfiltered (math : MathJs) (id : nat) (n f : string) :
  name_ (Item math id (Some (n, f)) []).1.1 = Some n
  ∧ removeName (Item math id (Some (n, f)) []).1.1 = n
  ∧ (∀ p, parseFormula math f = Ok p →
       (Item math id (Some (n, f)) []).1.2 = [target n f (value_ id)])
  ∧ (∀ st v, R.isEmpty v = true ∨ notReserved math v = false →
       Item_step math id st (nameInput v) = (st, [], [])).
Proof.
  split; [|split; [|split]].
  - unfold Item, Item_run, Item_step, name_step, formula_step, remove_step, fresh.
    cbn -[compile]. by destruct (compile math f) as [[p|] log].
  - unfold Item, Item_run, Item_step, name_step, formula_step, remove_step, fresh.
    cbn -[compile]. by destruct (compile math f) as [[p|] log].
  - intros p Hp. by rewrite restored_signals, Hp.
  - intros st v Hv. cbn [Item_step]. unfold nameChanges.
    destruct Hv as [-> | ->]; [done|]. by rewrite andb_false_r.
Qed.

Lemma restored_name_is_unfiltered_witness :
  (name_ (Item Sample.mathjs 0 (Some ("", "1")) []).1.1 = Some ""
   ∧ (Item Sample.mathjs 0 (Some ("", "1")) []).1.2 = [target "" "1" (value_ 0)])
  ∧ (name_ (Item Sample.mathjs 0 (Some ("pi", "1")) []).1.1 = Some "pi"
     ∧ (Item Sample.mathjs 0 (Some ("pi", "1")) []).1.2 = [target "pi" "1" (value_ 0)])
  ∧ Item_step Sample.mathjs 0 fresh (nameInput "") = (fresh, [], [])
  ∧ Item_step Sample.mathjs 0 fresh (nameInput "pi") = (fresh, [], []).
Proof.
  split; [|split; [|split]].
  - split.
    + apply (restored_name_is_unfiltered Sample.mathjs 0 "" "1").
    + apply (restored_name_is_unfiltered Sample.mathjs 0 "" "1")
        with (p := {| text := "1"; expr := ConstantNode 1; vars := [] |}).
      vm_compute. reflexivity.
  - split.
    + apply (restored_name_is_unfiltered Sample.mathjs 0 "pi" "1").
    + apply (restored_name_is_unfiltered Sample.mathjs 0 "pi" "1")
        with (p := {| text := "1"; expr := ConstantNode 1; vars := [] |}).
      vm_compute. reflexivity.
  - apply (restored_name_is_unfiltered Sample.mathjs 0 "" ""). left.
    reflexivity.
  - apply (restored_name_is_unfiltered Sample.mathjs 0 "" ""). right.
    vm_compute. reflexivity.
Defined.

(** ** The two folds *)

Lemma fold_snoc_last {A B} (g : B → A → B) (seed : B) (l : list A) (a : A) (b : B) :
  last (xs.fold g seed l) = Some b →
  last (xs.fold g seed (l ++ [a])) = Some (g b a).
Proof.
  rewrite !fold_last. intros [= <-]. by rewrite fold_left_app.
Qed.

Lemma keys_NoDup {V} (obj : gmap string V) : NoDup (R.keys obj).
Proof. apply NoDup_fst_map_to_list. Qed.

(** C9: at every point of both folds the mapping lists each name once;
    a publication under the name [n] puts its formula text and its value
    stream under [n] in place of what was there, leaves every other entry
    as it was, and adds no entry when [n] was already present. *)
Theorem name_collision_last_writer_wins (M : PersistedState) (sent : list signal)
    (n f : string) (v : Stream) :
  ∃ (storage : PersistedState) (sc : Scope),
    last (storage_states M sent) = Some storage
    ∧ last (scope_ sent) = Some sc
    ∧ last (storage_states M (sent ++ [target n f v])) = Some (<[n := f]> storage)
    ∧ last (scope_ (sent ++ [target n f v])) = Some (<[n := v]> sc)
    ∧ (<[n := f]> storage) !! n = Some f
    ∧ (<[n := v]> sc) !! n = Some v
    ∧ (∀ k, k ≠ n → (<[n := f]> storage) !! k = storage !! k
                     ∧ (<[n := v]> sc) !! k = sc !! k)
    ∧ (is_Some (storage !! n) → size (<[n := f]> storage) = size storage)
    ∧ (is_Some (sc !! n) → size (<[n := v]> sc) = size sc)
    ∧ Forall (λ s, NoDup (R.keys s)) (storage_states M (sent ++ [target n f v]))
    ∧ Forall (λ s, NoDup (R.keys s)) (scope_ (sent ++ [target n f v])).
Proof.
  unfold storage_states, scope_.
  eexists _, _. split; [apply fold_last|]. split; [apply fold_last|].
  split.
  { rewrite fmap_app. cbn [fmap list_fmap].
    erewrite fold_snoc_last; [|apply fold_last]. done. }
  split.
  { rewrite fmap_app. cbn [fmap list_fmap].
    erewrite fold_snoc_last; [|apply fold_last]. done. }
  split; [apply lookup_insert_eq|]. split; [apply lookup_insert_eq|].
  split.
  { intros k Hk. by rewrite !lookup_insert_ne. }
  split; [apply map_size_insert_Some|]. split; [apply map_size_insert_Some|].
  split; apply Forall_forall; intros s _; apply keys_NoDup.
Qed.

(** A later publication under the same name wins over an earlier one,
    whatever was sent in between short of a removal. *)
Lemma storage_last_target (M : PersistedState) (sent : list signal)
    (n f : string) (v : Stream) :
  ∃ storage, last (storage_states M (sent ++ [target n f v])) = Some storage
             ∧ storage !! n = Some f.
Proof.
  unfold storage_states. rewrite fold_last. eexists. split; [done|].
  rewrite fmap_app, fold_left_app. cbn. apply lookup_insert_eq.
Qed.

(** ** Persistence requests *)

Lemma uniq_twice {A} `{EqDecision A} (pre post : list A) (s : A) :
  uniq (pre ++ s :: s :: post) = uniq (pre ++ s :: post).
Proof.
  unfold uniq, xs.dropRepeats. rewrite !dropRepeats_from_app. f_equal.
  cbn [xs.dropRepeats_from]. rewrite !repeats_equals.
  repeat case_bool_decide; done.
Qed.

(** C8: two equal states in a row produce exactly one request; a state
    that equals the one before it produces no request of its own, and a
    state that differs from the one before it produces one, carrying that
    state; the last request carries the latest state; two consecutive
    requests never carry the same serialized mapping; a signal whose
    reducer leaves the persisted state as it is adds no request, and one
    whose reducer changes it adds the request of the new state. *)
Theorem storage_writes_deduplicated (stringify : PersistedState → string)
    (pre post : list PersistedState) (s : PersistedState) :
  Inj (=) (=) stringify →
  requests stringify (pre ++ s :: s :: post) = requests stringify (pre ++ s :: post)
  ∧ (∀ states i r1 r2,
       requests stringify states !! i = Some r1 →
       requests stringify states !! S i = Some r2 →
       value r1 ≠ value r2)
  ∧ (∀ M sent sig cur,
       last (storage_states M sent) = Some cur →
       storageReducer sig cur = cur →
       storage_ stringify M (sent ++ [sig]) = storage_ stringify M sent)
  ∧ requests stringify [s; s] = [{| key := "formulas"; value := stringify s |}]
  ∧ (last pre = Some s →
       requests stringify (pre ++ [s]) = requests stringify pre)
  ∧ (last pre ≠ Some s →
       requests stringify (pre ++ [s])
       = requests stringify pre ++ [{| key := "formulas"; value := stringify s |}])
  ∧ last (requests stringify (pre ++ [s]))
    = Some {| key := "formulas"; value := stringify s |}
  ∧ (∀ M sent sig cur,
       last (storage_states M sent) = Some cur →
       storageReducer sig cur ≠ cur →
       storage_ stringify M (sent ++ [sig])
       = storage_ stringify M sent
         ++ [{| key := "formulas"; value := stringify (storageReducer sig cur) |}]).
Proof.
  intros Hinj. split; [|split; [|split; [|split; [|split; [|split; [|split]]]]]].
  - unfold requests. by rewrite uniq_twice.
  - intros states i r1 r2. unfold requests. rewrite !list_lookup_fmap.
    destruct (uniq states !! i) as [m1|] eqn:E1; [|done].
    destruct (uniq states !! S i) as [m2|] eqn:E2; [|done].
    intros [= <-] [= <-]. cbn. intros Heq. apply Hinj in Heq.
    by apply (uniq_adjacent states i m1 m2).
  - intros M sent sig cur Hcur Hsame. unfold storage_, requests. f_equal.
    unfold storage_states in *. rewrite fmap_app, fold_app. cbn [fmap list_fmap].
    rewrite fold_last in Hcur. injection Hcur as Hcur. rewrite Hcur.
    cbn. rewrite Hsame. apply uniq_snoc_same.
    by rewrite fold_last, Hcur.
  - unfold requests. by rewrite (uniq_twice [] [] s).
  - intros Hlast. unfold requests. by rewrite uniq_snoc_same.
  - intros Hlast. unfold requests. by rewrite uniq_snoc_new, fmap_app.
  - unfold requests. by rewrite fmap_last, last_uniq, last_snoc.
  - intros M sent sig cur Hcur Hdiff. unfold storage_, requests.
    unfold storage_states in *. rewrite fmap_app, fold_app. cbn [fmap list_fmap].
    rewrite fold_last in Hcur. injection Hcur as Hcur. rewrite Hcur.
    cbn. rewrite uniq_snoc_new, fmap_app; [done|].
    rewrite fold_last, Hcur. congruence.
Qed.

Lemma stringify_sample_inj : Inj (=) (=) Sample.stringify.
Proof.
  intros m1 m2 Heq. unfold Sample.stringify in Heq.
  apply pretty_positive_inj in Heq. by apply (inj encode) in Heq.
Qed.

Lemma storage_writes_deduplicated_witness :
  Inj (=) (=) Sample.stringify
  ∧ requests Sample.stringify ([] ++ {[ "a" := "1" ]} :: {[ "a" := "1" ]} :: [])
    = requests Sample.stringify ([] ++ {[ "a" := "1" ]} :: [])
  ∧ requests Sample.stringify [{[ "a" := "1" ]}; {[ "a" := "1" ]}]
    = [{| key := "formulas"; value := Sample.stringify {[ "a" := "1" ]} |}].
Proof.
  split; [exact stringify_sample_inj|].
  destruct (storage_writes_deduplicated Sample.stringify [] [] {[ "a" := "1" ]}
              stringify_sample_inj) as (Hsame & _ & _ & Hone & _).
  split; [exact Hsame|exact Hone].
Defined.

(** * Further properties of the code *)

(** ** [uniq] and [pairwise] *)

Lemma dropRepeats_from_twice {A} `{EqDecision A} (v : option A) (l : list A) :
  xs.dropRepeats_from R.equals v (xs.dropRepeats_from R.equals v l)
  = xs.dropRepeats_from R.equals v l.
Proof.
  revert v. induction l as [|t l IH]; intros v; [done|].
  cbn [xs.dropRepeats_from]. destruct (xs.repeats R.equals v t) eqn:E; [apply IH|].
  cbn [xs.dropRepeats_from]. rewrite E. by rewrite IH.
Qed.

Lemma dropRepeats_from_sublist {A} `{EqDecision A} (v : option A) (l : list A) :
  sublist (xs.dropRepeats_from R.equals v l) l.
Proof.
  revert v. induction l as [|t l IH]; intros v; [constructor|].
  cbn [xs.dropRepeats_from]. destruct (xs.repeats R.equals v t).
  - by apply sublist_cons.
  - by apply sublist_skip.
Qed.

Lemma uniq_elem_of {A} `{EqDecision A} (l : list A) (x : A) :
  x ∈ uniq l → x ∈ l.
Proof. intros Hx. eapply elem_of_sublist; [exact Hx|]. apply dropRepeats_from_sublist. Qed.

Lemma uniq_head {A} `{EqDecision A} (l : list A) : head (uniq l) = head l.
Proof. by destruct l. Qed.

(** X1: [uniq] lets through a subsequence of its input that starts with
    the same event and ends with the same event, and a second [uniq] on
    its output drops nothing more. *)
Theorem uniq_keeps_ends_and_is_idempotent {A} `{EqDecision A} (l : list A) :
  uniq (uniq l) = uniq l
  ∧ sublist (uniq l) l
  ∧ head (uniq l) = head l
  ∧ last (uniq l) = last l.
Proof.
  split; [apply dropRepeats_from_twice|].
  split; [apply dropRepeats_from_sublist|].
  split; [apply uniq_head|apply last_uniq].
Qed.

Lemma pairwise_from_length {A} (val : option A) (l : list A) :
  length (xs.pairwise_from val l)
  = match val with
    | Some _ => length l
    | None => pred (length l)
    end.
Proof.
  revert val. induction l as [|t l IH]; intros val; [by destruct val|].
  cbn [xs.pairwise_from]. destruct val; cbn [length]; by rewrite IH.
Qed.

Lemma pairwise_from_last {A} (val : option A) (l : list A) (p c : A) :
  last (xs.pairwise_from val l) = Some (p, c) → last l = Some c.
Proof.
  revert val. induction l as [|t l IH]; intros val; [done|].
  cbn [xs.pairwise_from]. destruct val as [q|].
  - rewrite last_cons.
    destruct (last (xs.pairwise_from (Some t) l)) as [[p' c']|] eqn:E.
    + intros [= -> ->]. rewrite last_cons. by rewrite (IH _ E).
    + intros [= -> ->]. apply last_None in E.
      apply (f_equal length) in E. rewrite pairwise_from_length in E.
      by destruct l.
  - intros Hl. rewrite last_cons. by rewrite (IH _ Hl).
Qed.

(** ** Cells over a whole run *)

Section Item_runs.
Context (math : MathJs) (id : nat).

Lemma Item_run_cons (st : ItemState) (ev : ItemEvent) (evs : list ItemEvent) :
  let r := Item_step math id st ev in
  let r' := Item_run math id r.1.1 evs in
  (Item_run math id st (ev :: evs)).1.1 = r'.1.1
  ∧ (Item_run math id st (ev :: evs)).1.2 = r.1.2 ++ r'.1.2
  ∧ (Item_run math id st (ev :: evs)).2 = r.2 ++ r'.2.
Proof.
  cbn [Item_run]. rewrite !bind_unfold. cbn. by rewrite app_nil_r.
Qed.

(** A property of the state kept by every step, with a property of what
    the step sends and logs, holds along a run. *)
Lemma Item_run_invariant (Ev : ItemEvent → Prop) (Inv : ItemState → Prop)
    (Out : signal → Prop) (Log : diagnostic → Prop) :
  (∀ st ev, Ev ev → Inv st →
     Inv (Item_step math id st ev).1.1
     ∧ Forall Out (Item_step math id st ev).1.2
     ∧ Forall Log (Item_step math id st ev).2) →
  ∀ evs st, Forall Ev evs → Inv st →
    Inv (Item_run math id st evs).1.1
    ∧ Forall Out (Item_run math id st evs).1.2
    ∧ Forall Log (Item_run math id st evs).2.
Proof.
  intros Hstep evs. induction evs as [|ev evs IH]; intros st Hevs Hst.
  - cbn. by repeat split.
  - apply Forall_cons in Hevs as [Hev Hevs].
    destruct (Item_run_cons st ev evs) as (-> & -> & ->).
    destruct (Hstep st ev Hev Hst) as (Hst' & Hout & Hlog).
    destruct (IH _ Hevs Hst') as (? & ? & ?).
    split; [done|]. split; by apply Forall_app.
Qed.

Lemma name_step_spec (st : ItemState) (n : string) :
  let r := name_step id st n in
  name_ r.1 = Some n
  ∧ formulaRaw r.1 = formulaRaw st
  ∧ formula_ r.1 = formula_ st
  ∧ removeName r.1 = removeName st
  ∧ (r.2 = [] ∨ ∃ f, formula_ st = Some f ∧ r.2 = [target n (text f) (value_ id)]).
Proof.
  unfold name_step. rewrite repeats_equals. case_bool_decide as Hn; cbn.
  - repeat split; try done. by left.
  - repeat split; try done. destruct (formula_ st) as [f|]; [right|by left].
    by exists f.
Qed.

Lemma formula_step_spec (st : ItemState) (t : string) :
  let r := formula_step math id st t in
  name_ r.1.1 = name_ st
  ∧ removeName r.1.1 = removeName st
  ∧ ((formula_ r.1.1 = formula_ st ∧ r.1.2 = []
      ∧ (r.2 = [] ∨ ∃ e, parse math t = Throw e ∧ r.2 = [ParseWarning e t]))
     ∨ ∃ f, parseFormula math t = Ok f ∧ text f = t
            ∧ formula_ r.1.1 = Some f
            ∧ r.1.2 = target_ id (name_ st) (Some f)
            ∧ r.2 = []).
Proof.
  unfold formula_step. rewrite repeats_equals. case_bool_decide as Ht.
  - cbn. repeat split; try done. left. repeat split; try done. by left.
  - destruct (parse math t) as [parsed|e] eqn:Hp.
    + destruct (compile_ok math t parsed Hp) as (f & -> & Htext & Hf). cbn.
      repeat split; try done. right. by exists f.
    + rewrite (compile_throw math t e Hp). cbn.
      repeat split; try done. left. repeat split; try done. right. by exists e.
Qed.

Lemma nameChanges_Some (v n : string) :
  nameChanges math v = Some n → n = v ∧ v ≠ "" ∧ notReserved math v = true.
Proof.
  unfold nameChanges, R.isEmpty. case_bool_decide as Hv; cbn; [done|].
  destruct (notReserved math v); [|done]. by intros [= <-].
Qed.

Lemma Item_step_sound (st : ItemState) (ev : ItemEvent) :
  (∀ f, formula_ st = Some f → parseFormula math (text f) = Ok f) →
  (∀ f, formula_ (Item_step math id st ev).1.1 = Some f →
        parseFormula math (text f) = Ok f)
  ∧ Forall (λ sig, match sig with
                   | target n t s =>
                       s = value_ id ∧ ∃ f, parseFormula math t = Ok f ∧ text f = t
                   | remove _ => True
                   end) (Item_step math id st ev).1.2
  ∧ Forall (λ d, ∃ e t, d = ParseWarning e t ∧ parse math t = Throw e)
      (Item_step math id st ev).2.
Proof.
  intros Hinv.
  assert (Hname : ∀ st' n,
    (∀ f, formula_ st' = Some f → parseFormula math (text f) = Ok f) →
    Forall (λ sig, match sig with
                   | target n t s =>
                       s = value_ id ∧ ∃ f, parseFormula math t = Ok f ∧ text f = t
                   | remove _ => True
                   end) (name_step id st' n).2).
  { intros st' n Hst'.
    destruct (name_step_spec st' n) as (_ & _ & _ & _ & [-> | (f & Hf & ->)]).
    - constructor.
    - repeat constructor. exists f. split; [by apply Hst'|done]. }
  assert (Hformula : ∀ st' t,
    (∀ f, formula_ st' = Some f → parseFormula math (text f) = Ok f) →
    (∀ f, formula_ (formula_step math id st' t).1.1 = Some f →
          parseFormula math (text f) = Ok f)
    ∧ Forall (λ sig, match sig with
                     | target n t s =>
                         s = value_ id ∧ ∃ f, parseFormula math t = Ok f ∧ text f = t
                     | remove _ => True
                     end) (formula_step math id st' t).1.2
    ∧ Forall (λ d, ∃ e t, d = ParseWarning e t ∧ parse math t = Throw e)
        (formula_step math id st' t).2).
  { intros st' t Hst'.
    destruct (formula_step_spec st' t)
      as (_ & _ & [(-> & -> & Hlog) | (f & Hf & Htext & -> & -> & ->)]).
    - split; [done|]. split; [constructor|].
      destruct Hlog as [-> | (e & He & ->)]; [constructor|].
      repeat constructor. by exists e, t.
    - split; [|split; [|constructor]].
      + intros f' [= <-]. by rewrite Htext.
      + unfold target_. destruct (name_ st'); [|constructor].
        repeat constructor. unfold formulaText. rewrite Htext. by exists f. }
  destruct ev as [n f0|v|v|]; cbn [Item_step].
  - destruct (name_step id (remove_step st n) n) as [st1 out1] eqn:E.
    pose proof (name_step_spec (remove_step st n) n) as (_ & _ & Hf1 & _).
    pose proof (Hname (remove_step st n) n Hinv) as Hout1.
    rewrite E in Hf1, Hout1. cbn [fst snd] in Hf1, Hout1.
    assert (Hinv1 : ∀ f, formula_ st1 = Some f → parseFormula math (text f) = Ok f).
    { intros f Hf. apply Hinv. rewrite Hf1 in Hf. exact Hf. }
    destruct (Hformula st1 f0 Hinv1) as (H1 & H2 & H3).
    rewrite bind_unfold. cbn. rewrite app_nil_r.
    split; [done|]. split; [by apply Forall_app|done].
  - destruct (nameChanges math v) as [n|]; cbn.
    + pose proof (name_step_spec (remove_step st n) n) as (_ & _ & Hf1 & _).
      split; [|split; [by apply Hname|constructor]].
      intros f Hf. apply Hinv. cbn in Hf1. rewrite Hf1 in Hf. exact Hf.
    + split; [done|]. split; constructor.
  - by apply Hformula.
  - cbn. split; [done|]. split; [|constructor]. by repeat constructor.
Qed.

Lemma Item_step_names (evs : list ItemEvent) (st : ItemState) (ev : ItemEvent) :
  ev ∈ evs →
  (removeName st = default "" (name_ st)
   ∧ ∀ n, name_ st = Some n →
       (n ≠ "" ∧ notReserved math n = true) ∨ ∃ f, initial n f ∈ evs) →
  (removeName (Item_step math id st ev).1.1
   = default "" (name_ (Item_step math id st ev).1.1)
   ∧ ∀ n, name_ (Item_step math id st ev).1.1 = Some n →
       (n ≠ "" ∧ notReserved math n = true) ∨ ∃ f, initial n f ∈ evs)
  ∧ Forall (λ sig, match sig with
                   | target n _ _ =>
                       (n ≠ "" ∧ notReserved math n = true) ∨ ∃ f, initial n f ∈ evs
                   | remove n =>
                       n = "" ∨ (n ≠ "" ∧ notReserved math n = true)
                       ∨ ∃ f, initial n f ∈ evs
                   end) (Item_step math id st ev).1.2
  ∧ Forall (λ _, True) (Item_step math id st ev).2.
Proof.
  intros Hev [Hrem Hname].
  assert (Hlog : ∀ l : list diagnostic, Forall (λ _, True) l).
  { intros l. by apply Forall_forall. }
  assert (Hns : ∀ n,
    ((n ≠ "" ∧ notReserved math n = true) ∨ ∃ f, initial n f ∈ evs) →
    let r := name_step id (remove_step st n) n in
    (removeName r.1 = default "" (name_ r.1)
     ∧ ∀ n', name_ r.1 = Some n' →
         (n' ≠ "" ∧ notReserved math n' = true) ∨ ∃ f, initial n' f ∈ evs)
    ∧ Forall (λ sig, match sig with
                     | target n _ _ =>
                         (n ≠ "" ∧ notReserved math n = true)
                         ∨ ∃ f, initial n f ∈ evs
                     | remove n =>
                         n = "" ∨ (n ≠ "" ∧ notReserved math n = true)
                         ∨ ∃ f, initial n f ∈ evs
                     end) r.2).
  { intros n Hn r. subst r.
    destruct (name_step_spec (remove_step st n) n)
      as (Hn1 & _ & _ & Hr1 & Hout).
    split; [split|].
    - by rewrite Hr1, Hn1.
    - rewrite Hn1. by intros n' [= <-].
    - destruct Hout as [-> | (f & _ & ->)]; [constructor|].
      constructor; [exact Hn|constructor]. }
  destruct ev as [n f0|v|v|]; cbn [Item_step].
  - destruct (Hns n) as ([Hr1 Hn1] & Hout1); [right; by exists f0|].
    destruct (name_step id (remove_step st n) n) as [st1 out1] eqn:E.
    cbn [fst snd] in Hr1, Hn1, Hout1.
    rewrite bind_unfold. cbn. rewrite app_nil_r.
    destruct (formula_step_spec st1 f0) as (Hnm & Hrm & Hcase).
    split; [split|split; [|apply Hlog]].
    + by rewrite Hrm, Hnm.
    + rewrite Hnm. apply Hn1.
    + apply Forall_app. split; [done|].
      destruct Hcase as [(_ & -> & _) | (f & _ & _ & _ & -> & _)]; [constructor|].
      unfold target_. destruct (name_ st1) as [n1|] eqn:E1; [|constructor].
      constructor; [by apply Hn1|constructor].
  - destruct (nameChanges math v) as [n|] eqn:E; cbn.
    + apply nameChanges_Some in E as (-> & Hne & Hres).
      destruct (Hns v) as (Hst & Hout); [by left|].
      split; [done|]. split; [done|apply Hlog].
    + split; [done|]. split; [constructor|apply Hlog].
  - destruct (formula_step_spec st v) as (Hnm & Hrm & Hcase).
    split; [split|split; [|apply Hlog]].
    + by rewrite Hrm, Hnm.
    + rewrite Hnm. apply Hname.
    + destruct Hcase as [(_ & -> & _) | (f & _ & _ & _ & -> & _)]; [constructor|].
      unfold target_. destruct (name_ st) as [n1|] eqn:E1; [|constructor].
      constructor; [by apply Hname|constructor].
  - cbn. split; [done|]. split; [|constructor].
    constructor; [|constructor]. rewrite Hrem.
    destruct (name_ st) as [n|] eqn:E; cbn; [|by left].
    right. by apply Hname.
Qed.

End Item_runs.

(** X2: whatever the inputs of a cell, each of its publications carries
    the cell's own value stream and a formula text that compiles. *)
Theorem Item_publishes_compiled_formulas (math : MathJs) (id : nat)
    (evs : list ItemEvent) :
  Forall (λ sig, match sig with
                 | target n t s =>
                     s = value_ id ∧ ∃ f, parseFormula math t = Ok f ∧ text f = t
                 | remove _ => True
                 end) (Item_run math id fresh evs).1.2.
Proof.
  refine (proj1 (proj2 (Item_run_invariant math id (λ _, True)
    (λ st, ∀ f, formula_ st = Some f → parseFormula math (text f) = Ok f)
    _ (λ d, ∃ e t, d = ParseWarning e t ∧ parse math t = Throw e)
    _ evs fresh _ _))).
  - intros st ev _ Hst. by apply Item_step_sound.
  - by apply Forall_forall.
  - intros f Hf. discriminate Hf.
Qed.

(** X3: the console lines of a cell's own streams are the warnings of
    [parseError], each for a text that [math.parse] rejects, and there is
    at most one per input. *)
Theorem Item_logs_only_parse_errors (math : MathJs) (id : nat)
    (evs : list ItemEvent) :
  Forall (λ d, ∃ e t, d = ParseWarning e t ∧ parse math t = Throw e)
    (Item_run math id fresh evs).2
  ∧ (length (Item_run math id fresh evs).2 ≤ length evs)%nat.
Proof.
  split.
  - refine (proj2 (proj2 (Item_run_invariant math id (λ _, True)
      (λ st, ∀ f, formula_ st = Some f → parseFormula math (text f) = Ok f)
      (λ sig, match sig with
              | target n t s =>
                  s = value_ id ∧ ∃ f, parseFormula math t = Ok f ∧ text f = t
              | remove _ => True
              end) _ _ evs fresh _ _))).
    + intros st ev _ Hst. by apply Item_step_sound.
    + by apply Forall_forall.
    + intros f Hf. discriminate Hf.
  - generalize fresh. induction evs as [|ev evs IH]; intros st; [done|].
    destruct (Item_run_cons math id st ev evs) as (_ & _ & ->).
    rewrite length_app. cbn [length].
    assert (length (Item_step math id st ev).2 ≤ 1)%nat as Hstep.
    { destruct ev as [n f0|v|v|]; cbn [Item_step].
      - destruct (name_step id (remove_step st n) n) as [st1 out1].
        rewrite bind_unfold. cbn. rewrite app_nil_r.
        destruct (formula_step_spec math id st1 f0)
          as (_ & _ & [(_ & _ & [-> | (e & _ & ->)]) | (f & _ & _ & _ & _ & ->)]);
          cbn; lia.
      - destruct (nameChanges math v); cbn; lia.
      - destruct (formula_step_spec math id st v)
          as (_ & _ & [(_ & _ & [-> | (e & _ & ->)]) | (f & _ & _ & _ & _ & ->)]);
          cbn; lia.
      - cbn. lia. }
    specialize (IH (Item_step math id st ev).1.1). lia.
Qed.

(** X4: a cell publishes, and asks to remove, only under a name that is
    non-empty and not reserved, or that is the name of a restore payload
    it received; the one exception is the removal of a cell that never
    had a name, which is sent under the empty name. *)
Theorem Item_names_are_filtered_or_restored (math : MathJs) (id : nat)
    (evs : list ItemEvent) :
  Forall (λ sig, match sig with
                 | target n _ _ =>
                     (n ≠ "" ∧ notReserved math n = true) ∨ ∃ f, initial n f ∈ evs
                 | remove n =>
                     n = "" ∨ (n ≠ "" ∧ notReserved math n = true)
                     ∨ ∃ f, initial n f ∈ evs
                 end) (Item_run math id fresh evs).1.2.
Proof.
  refine (proj1 (proj2 (Item_run_invariant math id (λ ev, ev ∈ evs)
    (λ st, removeName st = default "" (name_ st)
           ∧ ∀ n, name_ st = Some n →
               (n ≠ "" ∧ notReserved math n = true) ∨ ∃ f, initial n f ∈ evs)
    _ (λ _, True) _ evs fresh _ _))).
  - intros st ev Hev Hst. by apply Item_step_names.
  - by apply Forall_forall.
  - split; [done|]. intros n Hn. discriminate Hn.
Qed.

(** X5: after any inputs, the name a click on the remove button sends is
    the current name of the cell, or the empty string when the cell has
    none. *)
Theorem remove_sends_current_name (math : MathJs) (id : nat)
    (evs : list ItemEvent) :
  removeName (Item_run math id fresh evs).1.1
  = default "" (name_ (Item_run math id fresh evs).1.1)
  ∧ (Item_run math id fresh (evs ++ [removeClick])).1.2
    = (Item_run math id fresh evs).1.2
      ++ [remove (default "" (name_ (Item_run math id fresh evs).1.1))].
Proof.
  assert (Hinv : removeName (Item_run math id fresh evs).1.1
                 = default "" (name_ (Item_run math id fresh evs).1.1)).
  { refine (proj1 (proj1 (Item_run_invariant math id (λ ev, ev ∈ evs)
      (λ st, removeName st = default "" (name_ st)
             ∧ ∀ n, name_ st = Some n →
                 (n ≠ "" ∧ notReserved math n = true) ∨ ∃ f, initial n f ∈ evs)
      _ (λ _, True) _ evs fresh _ _))).
    - intros st ev Hev Hst. by apply Item_step_names.
    - by apply Forall_forall.
    - split; [done|]. intros n Hn. discriminate Hn. }
  split; [done|]. rewrite <- Hinv. clear Hinv. generalize fresh.
  induction evs as [|ev evs IH]; intros st; [done|].
  cbn [app].
  destruct (Item_run_cons math id st ev (evs ++ [removeClick])) as (_ & -> & _).
  destruct (Item_run_cons math id st ev evs) as (-> & -> & _).
  by rewrite IH, app_assoc.
Qed.

(** ** The name of a cell and its renames *)

Lemma Item_step_name (math : MathJs) (id : nat) (st : ItemState) (ev : ItemEvent) :
  name_ (Item_step math id st ev).1.1
  = match name_source math ev with
    | Some n => Some n
    | None => name_ st
    end.
Proof.
  destruct ev as [n f0|v|v|]; cbn [Item_step name_source].
  - pose proof (name_step_spec id (remove_step st n) n) as (Hn & _).
    destruct (name_step id (remove_step st n) n) as [st1 out1].
    rewrite bind_unfold. cbn.
    destruct (formula_step_spec math id st1 f0) as (-> & _). exact Hn.
  - destruct (nameChanges math v) as [n|]; cbn; [|done].
    by destruct (name_step_spec id (remove_step st n) n) as (Hn & _).
  - by destruct (formula_step_spec math id st v) as (-> & _).
  - done.
Qed.

Lemma Item_run_name (math : MathJs) (id : nat) (st : ItemState)
    (evs : list ItemEvent) :
  name_ (Item_run math id st evs).1.1
  = seen (name_ st) (omap (name_source math) evs).
Proof.
  revert st. induction evs as [|ev evs IH]; intros st; [done|].
  destruct (Item_run_cons math id st ev evs) as (-> & _ & _).
  rewrite IH, Item_step_name. cbn [omap list_omap].
  destruct (name_source math ev) as [n|]; [|done].
  by rewrite seen_cons.
Qed.

Lemma pairwise_from_lookup {A} (q : A) (l : list A) (i : nat) :
  xs.pairwise_from (Some q) l !! i
  = (q :: l) !! i ≫= λ p, (q :: l) !! S i ≫= λ c, Some (p, c).
Proof.
  revert q i. induction l as [|t l IH]; intros q i.
  - cbn. by destruct i.
  - cbn [xs.pairwise_from]. destruct i as [|i]; [done|].
    cbn [lookup list_lookup]. apply IH.
Qed.

Lemma pairwise_lookup {A} (l : list A) (i : nat) :
  xs.pairwise l !! i = l !! i ≫= λ p, l !! S i ≫= λ c, Some (p, c).
Proof.
  unfold xs.pairwise. destruct l as [|t l]; [done|].
  cbn [xs.pairwise_from]. apply pairwise_from_lookup.
Qed.

Lemma Item_run_name_last (math : MathJs) (id : nat) (evs : list ItemEvent) :
  name_ (Item_run math id fresh evs).1.1 = last (omap (name_source math) evs).
Proof.
  rewrite Item_run_name. unfold seen. cbn [name_ fresh].
  by destruct (last (omap (name_source math) evs)).
Qed.

Lemma Item_run_removeName (math : MathJs) (id : nat) (evs : list ItemEvent) :
  removeName (Item_run math id fresh evs).1.1
  = default "" (name_ (Item_run math id fresh evs).1.1).
Proof.
  refine (proj1 (proj1 (Item_run_invariant math id (λ ev, ev ∈ evs)
    (λ st, removeName st = default "" (name_ st)
           ∧ ∀ n, name_ st = Some n →
               (n ≠ "" ∧ notReserved math n = true) ∨ ∃ f, initial n f ∈ evs)
    _ (λ _, True) _ evs fresh _ _))).
  - intros st ev Hev Hst. by apply Item_step_names.
  - by apply Forall_forall.
  - split; [done|]. intros n Hn. discriminate Hn.
Qed.

(** X6: the name a cell holds after any inputs is the last name that
    entered the merge of the restore payload and the accepted name
    edits, which is also the value [name$] replays to a late subscriber. *)
Theorem name_is_last_accepted_input (math : MathJs) (id : nat)
    (evs : list ItemEvent) :
  name_ (Item_run math id fresh evs).1.1 = last (omap (name_source math) evs)
  ∧ name_ (Item_run math id fresh evs).1.1 = xs.remember (name_stream math evs).
Proof.
  split; [apply Item_run_name_last|].
  rewrite Item_run_name_last. unfold xs.remember, name_stream.
  by rewrite last_uniq.
Qed.

(** X7: [rename$] emits one pair per change of name: the names of a pair
    differ, each pair starts with the name the pair before it ends with,
    and the last pair ends with the current name of the cell. *)
Theorem rename_pairs_chain (math : MathJs) (id : nat) (evs : list ItemEvent) :
  Forall (λ pc, pc.1 ≠ pc.2) (rename_ math evs)
  ∧ length (rename_ math evs) = pred (length (name_stream math evs))
  ∧ (∀ i a b b' c,
       rename_ math evs !! i = Some (a, b) →
       rename_ math evs !! S i = Some (b', c) → b = b')
  ∧ (∀ p c, last (rename_ math evs) = Some (p, c) →
       name_ (Item_run math id fresh evs).1.1 = Some c).
Proof.
  unfold rename_. split; [|split; [|split]].
  - apply Forall_forall. intros [p c] Hin.
    apply list_elem_of_lookup in Hin as [i Hi].
    rewrite pairwise_lookup in Hi.
    destruct (name_stream math evs !! i) as [p'|] eqn:E1; [|done].
    destruct (name_stream math evs !! S i) as [c'|] eqn:E2; [|done].
    cbn in Hi. injection Hi as <- <-. cbn.
    by apply (uniq_adjacent (omap (name_source math) evs) i).
  - apply (pairwise_from_length None).
  - intros i a b b' c. rewrite !pairwise_lookup.
    destruct (name_stream math evs !! i) as [x|]; [|done].
    destruct (name_stream math evs !! S i) as [y|]; [|done].
    destruct (name_stream math evs !! S (S i)) as [z|]; [|done].
    cbn. by intros [= <- <-] [= <- <-].
  - intros p c Hl. apply pairwise_from_last in Hl.
    rewrite Item_run_name_last. unfold name_stream in Hl.
    by rewrite last_uniq in Hl.
Qed.

(** ** The two folds over any signals *)

Lemma fold_cons {A B} (g : B → A → B) (seed : B) (a : A) (l : list A) :
  xs.fold g seed (a :: l) = seed :: xs.fold g (g seed a) l.
Proof. done. Qed.

Lemma fold_length {A B} (g : B → A → B) (seed : B) (l : list A) :
  length (xs.fold g seed l) = S (length l).
Proof.
  revert seed. induction l as [|a l IH]; intros seed; [done|].
  rewrite fold_cons. cbn [length]. by rewrite IH.
Qed.

Lemma reducers_keep_dom (sig : signal) (sc : Scope) (st : PersistedState) :
  dom sc ⊆ dom st → dom (scopeReducer sig sc) ⊆ dom (storageReducer sig st).
Proof.
  intros Hsub. destruct sig as [n f v|n]; cbn [scopeReducer storageReducer].
  - unfold valueReducer, formulaReducer, R.set. cbn.
    rewrite !dom_insert_L. apply union_mono_l. exact Hsub.
  - intros k Hk. apply elem_of_dom in Hk. apply elem_of_dom.
    rewrite removeReducer_lookup in Hk. rewrite removeReducer_lookup.
    case_decide as Hin.
    { destruct Hk as [x Hx]. discriminate Hx. }
    apply elem_of_dom. apply Hsub. apply elem_of_dom. exact Hk.
Qed.

Lemma folds_keep_dom (sigs : list signal) (sc : Scope) (st : PersistedState) :
  dom sc ⊆ dom st →
  Forall2 (λ (sc : Scope) (st : PersistedState), dom sc ⊆ dom st)
    (xs.fold (λ scope reducer, reducer scope) sc (scopeReducer <$> sigs))
    (xs.fold (λ storage reducer, reducer storage) st (storageReducer <$> sigs)).
Proof.
  revert sc st. induction sigs as [|sig sigs IH]; intros sc st Hsub.
  - cbn. by repeat constructor.
  - cbn [fmap list_fmap]. rewrite !fold_cons. constructor; [done|].
    apply IH. by apply reducers_keep_dom.
Qed.

(** X8: at every point of the two folds, every name that has an entry in
    the scope has an entry in the persisted mapping. *)
Theorem scope_names_are_persisted (M : PersistedState) (sigs : list signal) :
  Forall2 (λ (sc : Scope) (st : PersistedState), dom sc ⊆ dom st)
    (scope_ sigs) (storage_states M sigs).
Proof.
  unfold scope_, storage_states. apply folds_keep_dom.
  rewrite dom_empty_L. apply empty_subseteq.
Qed.

Lemma storage_fold_entries (Q : string → string → Prop) (st0 : PersistedState)
    (sigs : list signal) :
  (∀ k t, st0 !! k = Some t → Q k t) →
  Forall (λ sig, match sig with
                 | target n t _ => Q n t
                 | remove _ => True
                 end) sigs →
  Forall (λ st : PersistedState, ∀ k t, st !! k = Some t → Q k t)
    (storage_states st0 sigs).
Proof.
  unfold storage_states. intros H0 Hsigs. revert st0 H0.
  induction Hsigs as [|sig sigs Hsig _ IH]; intros st0 H0.
  - cbn. by repeat constructor.
  - cbn [fmap list_fmap]. rewrite fold_cons. constructor; [done|].
    apply IH. intros k t. destruct sig as [n f v|n]; cbn [storageReducer].
    + unfold formulaReducer, R.set. cbn. rewrite lookup_insert.
      case_decide as Hk; [|by apply H0]. subst k. by intros [= <-].
    + rewrite removeReducer_lookup. case_decide; [done|]. apply H0.
Qed.

Lemma scope_fold_entries (Q : string → Stream → Prop) (sc0 : Scope)
    (sigs : list signal) :
  (∀ k s, sc0 !! k = Some s → Q k s) →
  Forall (λ sig, match sig with
                 | target n _ v => Q n v
                 | remove _ => True
                 end) sigs →
  Forall (λ sc : Scope, ∀ k s, sc !! k = Some s → Q k s)
    (xs.fold (λ scope reducer, reducer scope) sc0 (scopeReducer <$> sigs)).
Proof.
  intros H0 Hsigs. revert sc0 H0.
  induction Hsigs as [|sig sigs Hsig _ IH]; intros sc0 H0.
  - cbn. by repeat constructor.
  - cbn [fmap list_fmap]. rewrite fold_cons. constructor; [done|].
    apply IH. intros k s. destruct sig as [n f v|n]; cbn [scopeReducer].
    + unfold valueReducer, R.set. cbn. rewrite lookup_insert.
      case_decide as Hk; [|by apply H0]. subst k. by intros [= <-].
    + rewrite removeReducer_lookup. case_decide; [done|]. apply H0.
Qed.

(** X9: the folds invent nothing: an entry of the persisted mapping is an
    entry of the loaded mapping or the name and text of a publication, and
    an entry of the scope is the name and value stream of a publication. *)
Theorem fold_entries_come_from_signals (M : PersistedState) (sigs : list signal) :
  Forall (λ st : PersistedState, ∀ k t, st !! k = Some t →
            M !! k = Some t ∨ ∃ v, target k t v ∈ sigs)
    (storage_states M sigs)
  ∧ Forall (λ sc : Scope, ∀ k s, sc !! k = Some s → ∃ t, target k t s ∈ sigs)
      (scope_ sigs).
Proof.
  split.
  - apply storage_fold_entries; [by left|].
    apply Forall_forall. intros [n t v|n] Hin; [|done]. right. by exists v.
  - apply scope_fold_entries; [done|].
    apply Forall_forall. intros [n t v|n] Hin; [|done]. by exists t.
Qed.

(** X10: the first persistence request carries the mapping that was
    loaded, every request is for the key [formulas], and there is at most
    one request per signal after the first. *)
Theorem storage_requests_start_with_loaded (stringify : PersistedState → string)
    (M : PersistedState) (sigs : list signal) :
  head (storage_ stringify M sigs)
  = Some {| key := "formulas"; value := stringify M |}
  ∧ Forall (λ r, key r = "formulas") (storage_ stringify M sigs)
  ∧ (length (storage_ stringify M sigs) ≤ S (length sigs))%nat.
Proof.
  unfold storage_, requests. split; [|split].
  - unfold storage_states. by destruct (storageReducer <$> sigs).
  - apply Forall_fmap, Forall_forall. by intros st _.
  - rewrite length_fmap.
    etrans; [apply sublist_length, dropRepeats_from_sublist|].
    unfold storage_states. by rewrite fold_length, length_fmap.
Qed.

(** ** The scope after start-up *)

Lemma scope_fold_last_target (sigs : list signal) (k : string) (s : Stream) :
  Forall (λ sig, match sig with target _ _ _ => True | remove _ => False end) sigs →
  (∃ t, target k t s ∈ sigs) →
  (∀ t s', target k t s' ∈ sigs → s' = s) →
  fold_left (λ scope reducer, reducer scope) (scopeReducer <$> sigs) (∅ : Scope) !! k
  = Some s.
Proof.
  induction sigs as [|sig sigs IH] using rev_ind; intros Hall [t Hin] Huniq.
  - by apply elem_of_nil in Hin.
  - rewrite fmap_app, fold_left_app. cbn [fmap list_fmap fold_left].
    apply Forall_app in Hall as [Hall Hsig]. rewrite Forall_singleton in Hsig.
    destruct sig as [n f v|n]; [|exfalso; exact Hsig]. cbn [scopeReducer].
    unfold valueReducer, R.set. cbn. rewrite lookup_insert.
    case_decide as Hn.
    + subst n. f_equal. apply (Huniq f). apply elem_of_app. right. by left.
    + apply IH; [done| |].
      * exists t. apply elem_of_app in Hin as [Hin|Hin]; [done|].
        apply list_elem_of_singleton in Hin. congruence.
      * intros t' s' Hin'. apply (Huniq t'). apply elem_of_app. by left.
Qed.

Lemma bootstrap_of_elem (math : MathJs) (entries : list (string * string))
    (s : signal) :
  s ∈ bootstrap_of math entries ↔
  ∃ i k v f, entries !! i = Some (k, v)
             ∧ parseFormula math v = Ok f
             ∧ s = target k v (value_ i).
Proof.
  unfold bootstrap_of, restored_of, asCollection_of.
  rewrite list_elem_of_join. split.
  - intros (l & Hs & Hl).
    apply list_elem_of_fmap in Hl as (c & -> & Hc).
    apply elem_of_lookup_imap in Hc as (i & p & -> & Hp).
    rewrite list_lookup_fmap in Hp.
    destruct (entries !! i) as [[k v]|] eqn:E; [|done].
    injection Hp as <-. cbn [fst snd] in Hs.
    rewrite restored_signals in Hs.
    destruct (parseFormula math v) as [f|e] eqn:Ef.
    + apply list_elem_of_singleton in Hs. by exists i, k, v, f.
    + by apply elem_of_nil in Hs.
  - intros (i & k & v & f & Hi & Hf & ->).
    exists [target k v (value_ i)]. split; [by left|].
    apply list_elem_of_fmap.
    exists (Item math i (Some (k, v)) []). split.
    + by rewrite restored_signals, Hf.
    + apply (elem_of_lookup_imap_2 (λ i initial_, Item math i initial_ [])).
      by rewrite list_lookup_fmap, Hi.
Qed.

Lemma bootstrap_of_map_to_list (math : MathJs) (M : PersistedState) :
  bootstrap math M = bootstrap_of math (map_to_list M).
Proof. reflexivity. Qed.

(** In whatever order the properties of the loaded object come, the
    publications of the restored cells leave the persisted mapping as it
    was loaded. *)
Lemma bootstrap_of_fixes (math : MathJs) (entries : list (string * string))
    (M : PersistedState) :
  (∀ k v, (k, v) ∈ entries → M !! k = Some v) →
  Forall (λ s, s = M) (storage_states M (bootstrap_of math entries)).
Proof.
  intros Hentries. unfold storage_states. apply fold_fixed.
  apply Forall_fmap, Forall_forall. intros s Hs.
  apply bootstrap_of_elem in Hs as (i & k & v & f & Hi & _ & ->).
  cbn. unfold formulaReducer, R.set. cbn.
  apply insert_id, Hentries, list_elem_of_lookup. by exists i.
Qed.

(** X11: let [entries] be the properties of the loaded object in the
    order [R.keys] enumerates them, no name twice.  Once the restored
    cells have published, the scope binds a name to the value stream of
    the cell in position [i] exactly when the [i]-th property has that
    name and a formula that compiles; every binding is to a restored
    cell, and a name whose stored formula does not compile is absent. *)
Theorem bootstrap_scope (math : MathJs) (entries : list (string * string)) :
  NoDup entries.*1 →
  ∃ sc : Scope,
    last (scope_ (bootstrap_of math entries)) = Some sc
    ∧ (∀ k i, sc !! k = Some (value_ i)
              ↔ ∃ v f, entries !! i = Some (k, v) ∧ parseFormula math v = Ok f)
    ∧ (∀ k s, sc !! k = Some s → ∃ i, s = value_ i ∧ (i < length entries)%nat)
    ∧ (∀ k v e, (k, v) ∈ entries → parseFormula math v = Throw e → sc !! k = None).
Proof.
  intros Hnodup. unfold scope_. eexists. split; [apply fold_last|].
  assert (Hprov : ∀ k' s,
    fold_left (λ scope reducer, reducer scope)
      (scopeReducer <$> bootstrap_of math entries) (∅ : Scope) !! k' = Some s →
    ∃ i v f, s = value_ i ∧ entries !! i = Some (k', v)
             ∧ parseFormula math v = Ok f).
  { intros k' s Hs.
    assert (Hall : Forall (λ sc : Scope, ∀ k s, sc !! k = Some s →
                             ∃ t, target k t s ∈ bootstrap_of math entries)
                     (xs.fold (λ scope reducer, reducer scope) ∅
                        (scopeReducer <$> bootstrap_of math entries))).
    { apply scope_fold_entries; [done|].
      apply Forall_forall. intros [n t v|n] Hin; [|done]. by exists t. }
    rewrite Forall_forall in Hall.
    destruct (Hall _ (last_Some_elem_of _ _ (fold_last _ _ _)) k' s Hs) as [t Hin].
    apply bootstrap_of_elem in Hin as (i & k0 & v & f & Hi & Hf & [= -> -> ->]).
    by exists i, v, f. }
  split; [|split].
  - intros k i. split.
    + intros Hs. apply Hprov in Hs as (i' & v & f & [= <-] & Hi & Hf).
      by exists v, f.
    + intros (v & f & Hi & Hf). apply scope_fold_last_target.
      * apply Forall_forall. intros sig Hin.
        by apply bootstrap_of_elem in Hin as (? & ? & ? & ? & _ & _ & ->).
      * exists v. apply bootstrap_of_elem. by exists i, k, v, f.
      * intros t s' Hin.
        apply bootstrap_of_elem in Hin
          as (i' & k' & v' & f' & Hi' & _ & [= <- -> ->]).
        f_equal. eapply NoDup_lookup; [exact Hnodup| |].
        -- rewrite list_lookup_fmap, Hi'. reflexivity.
        -- rewrite list_lookup_fmap, Hi. reflexivity.
  - intros k s Hs. apply Hprov in Hs as (i & v & f & -> & Hi & _).
    exists i. split; [done|]. by apply lookup_lt_Some in Hi.
  - intros k v e Hk Hthrow.
    destruct (fold_left _ _ _ !! k) as [s|] eqn:Hs; [|done].
    apply Hprov in Hs as (i & v' & f & _ & Hi & Hf).
    apply list_elem_of_lookup in Hk as [j Hj].
    assert (i = j) as ->.
    { eapply NoDup_lookup; [exact Hnodup| |].
      - rewrite list_lookup_fmap, Hi. reflexivity.
      - rewrite list_lookup_fmap, Hj. reflexivity. }
    congruence.
Qed.

Lemma bootstrap_scope_witness :
  NoDup [("b", "1"); ("bad", "1 +"); ("a", "b + 1")].*1
  ∧ ∃ sc : Scope,
      last (scope_ (bootstrap_of Sample.mathjs
                      [("b", "1"); ("bad", "1 +"); ("a", "b + 1")])) = Some sc
      ∧ sc = {[ "b" := value_ 0; "a" := value_ 2 ]}.
Proof.
  assert (Hnodup : NoDup [("b", "1"); ("bad", "1 +"); ("a", "b + 1")].*1).
  { compute_done. }
  split; [exact Hnodup|].
  destruct (bootstrap_scope Sample.mathjs
              [("b", "1"); ("bad", "1 +"); ("a", "b + 1")] Hnodup)
    as (sc & Hsc & _).
  exists sc. split; [exact Hsc|].
  vm_compute in Hsc. injection Hsc as <-. vm_compute. reflexivity.
Defined.

(** ** Removal *)

(** X12: a removal only takes entries out: what is left is part of the
    mapping with the same values; removing twice is removing once, two
    removals commute, and the removal under the empty name, sent for a
    cell that never had a name, leaves the mapping as it is. *)
Theorem removeReducer_only_evicts {V} (c d : string) (obj : gmap string V) :
  removeReducer c obj ⊆ obj
  ∧ removeReducer c (removeReducer c obj) = removeReducer c obj
  ∧ removeReducer c (removeReducer d obj) = removeReducer d (removeReducer c obj)
  ∧ removeReducer "" obj = obj.
Proof.
  split; [apply map_filter_subseteq|]. split; [|split].
  - apply map_eq. intros k. rewrite !removeReducer_lookup. by case_decide.
  - apply map_eq. intros k. rewrite !removeReducer_lookup.
    by repeat case_decide.
  - apply map_eq. intros k. rewrite removeReducer_lookup. cbn.
    rewrite decide_False; [done|]. apply not_elem_of_nil.
Qed.

(** X13: the removal of a cell that has no name, because it was added by
    a click and no accepted name was typed, changes neither fold. *)
Theorem unnamed_cell_removal_changes_nothing (math : MathJs) (id : nat)
    (evs : list ItemEvent) (M : PersistedState) (sigs : list signal) :
  name_ (Item_run math id fresh evs).1.1 = None →
  (Item_step math id (Item_run math id fresh evs).1.1 removeClick).1.2 = [remove ""]
  ∧ last (storage_states M (sigs ++ [remove ""])) = last (storage_states M sigs)
  ∧ last (scope_ (sigs ++ [remove ""])) = last (scope_ sigs).
Proof.
  intros Hname. split; [|split].
  - cbn [Item_step]. cbn. by rewrite Item_run_removeName, Hname.
  - unfold storage_states. rewrite !fold_last, fmap_app, fold_left_app.
    cbn [fmap list_fmap fold_left storageReducer].
    f_equal. apply map_eq. intros k. rewrite removeReducer_lookup. cbn.
    rewrite decide_False; [done|]. apply not_elem_of_nil.
  - unfold scope_. rewrite !fold_last, fmap_app, fold_left_app.
    cbn [fmap list_fmap fold_left scopeReducer].
    f_equal. apply map_eq. intros k. rewrite removeReducer_lookup. cbn.
    rewrite decide_False; [done|]. apply not_elem_of_nil.
Qed.

Lemma unnamed_cell_removal_changes_nothing_witness :
  name_ (Item_run Sample.mathjs 2 fresh
           [formulaInput "1"; nameInput "pi"; nameInput ""]).1.1 = None
  ∧ (Item_step Sample.mathjs 2
       (Item_run Sample.mathjs 2 fresh
          [formulaInput "1"; nameInput "pi"; nameInput ""]).1.1 removeClick).1.2
    = [remove ""].
Proof.
  split; [vm_compute; reflexivity|].
  apply (unnamed_cell_removal_changes_nothing Sample.mathjs 2
           [formulaInput "1"; nameInput "pi"; nameInput ""] ∅ []).
  vm_compute. reflexivity.
Defined.

(** ** The lens and the evaluation, further *)

Lemma narrow_nil (w : World) : narrow [] w = Some ∅.
Proof. reflexivity. Qed.

Lemma narrow_Some_bound (vars : list string) (w : World) (snap : Snapshot) (x : string) :
  narrow vars w = Some snap → x ∈ vars → is_Some (lookup_value w x).
Proof.
  rewrite narrow_lookup_value. intros Hn Hx.
  destruct (mapM (lookup_value w) vars) as [vs|] eqn:E; [|done].
  apply mapM_Some_1 in E. apply list_elem_of_lookup in Hx as [i Hi].
  destruct (Forall2_lookup_l _ _ _ _ _ E Hi) as (v & _ & Hv). by exists v.
Qed.

(** X14: a formula without variables is evaluated once, on the empty
    snapshot, however many times the scope changes afterwards. *)
Theorem constant_formula_is_evaluated_once (math : MathJs) (f : Formula)
    (ws : list World) :
  vars f = [] → ws ≠ [] →
  lensScope (vars f) ws = [∅]
  ∧ value_inner math f ws = value_of math f [∅]
  ∧ length (value_inner math f ws).1 = 1%nat.
Proof.
  intros Hvars Hws.
  assert (Hlens : lensScope (vars f) ws = [∅]).
  { rewrite Hvars. unfold lensScope. destruct ws as [|w ws]; [done|].
    cbn [omap list_omap]. rewrite narrow_nil. apply uniq_constant.
    clear Hws. induction ws as [|w' ws IH]; [constructor|].
    cbn [omap list_omap]. rewrite narrow_nil. by constructor. }
  split; [done|]. unfold value_inner. rewrite Hlens. split; [done|].
  by rewrite value_of_unfold.
Qed.

Lemma constant_formula_is_evaluated_once_witness :
  (vars {| text := "1"; expr := ConstantNode 1; vars := [] |} = []
   ∧ [Sample.sheet 1 5; Sample.sheet 2 5; Sample.sheet_without_x 7] ≠ [])
  ∧ value_inner Sample.mathjs {| text := "1"; expr := ConstantNode 1; vars := [] |}
      [Sample.sheet 1 5; Sample.sheet 2 5; Sample.sheet_without_x 7]
    = ([VNumber 1], []).
Proof.
  split; [split; [reflexivity|discriminate]|].
  destruct (constant_formula_is_evaluated_once Sample.mathjs
              {| text := "1"; expr := ConstantNode 1; vars := [] |}
              [Sample.sheet 1 5; Sample.sheet 2 5; Sample.sheet_without_x 7])
    as (_ & -> & _); [reflexivity|discriminate|].
  vm_compute. reflexivity.
Defined.

(** X15: every snapshot the lens emits is the restriction of one instant
    of the trace to the variables: its keys are exactly the variables, and
    each is bound to what that one instant holds for it. *)
Theorem lensScope_snapshots_are_restrictions (vars : list string) (ws : list World) :
  Forall (λ snap : Snapshot,
            ∃ w, w ∈ ws
                 ∧ dom snap = list_to_set vars
                 ∧ ∀ x, snap !! x
                        = if decide (x ∈ vars) then lookup_value w x else None)
    (lensScope vars ws).
Proof.
  apply Forall_forall. intros snap Hin. unfold lensScope in Hin.
  apply uniq_elem_of, list_elem_of_omap in Hin as (w & Hw & Hsnap).
  exists w. split; [done|].
  assert (Hlk : ∀ x, snap !! x
                     = if decide (x ∈ vars) then lookup_value w x else None).
  { intros x. by apply narrow_lookup. }
  split; [|done]. apply set_eq. intros x.
  rewrite elem_of_dom, elem_of_list_to_set, Hlk. case_decide as Hx.
  - split; [done|]. intros _. by apply (narrow_Some_bound vars w snap).
  - split; [|done]. by intros [? ?].
Qed.

(** X16: the values of a cell are the results of the evaluation on each
    snapshot, [undefined] standing for a throw, without consecutive
    repeats; the console gets one warning per snapshot on which the
    evaluation throws, in order, and nothing else. *)
Theorem one_warning_per_failed_evaluation (math : MathJs) (f : Formula)
    (snaps : list Snapshot) :
  (value_of math f snaps).1
  = uniq ((λ s, match eval math (expr f) s with
                | Ok v => v
                | Throw _ => VUndefined
                end) <$> snaps)
  ∧ (value_of math f snaps).2
    = omap (λ s, match eval math (expr f) s with
                 | Ok _ => None
                 | Throw e => Some (EvalWarning e s)
                 end) snaps.
Proof.
  rewrite value_of_unfold. cbn [fst snd]. split.
  - f_equal. apply list_fmap_ext. intros _ s _.
    unfold evaluate, R.tryCatch. by destruct (eval math (expr f) s).
  - induction snaps as [|s snaps IH]; [done|].
    cbn [fmap list_fmap omap list_omap]. rewrite <- IH.
    unfold evaluate, R.tryCatch. by destruct (eval math (expr f) s).
Qed.

(** ** Renaming, the view and the first run *)

(** X17: when a named cell with an accepted formula is given another
    accepted name, it publishes once under the new name and never asks to
    remove the old one: both folds then hold the formula and the value
    stream under the old name and under the new, and a later removal of
    the cell, sent under the new name, leaves the entry of the old name in
    place. *)
Theorem rename_keeps_old_entry (math : MathJs) (id : nat) (st : ItemState)
    (a b : string) (f : Formula) (S : PersistedState) (sc : Scope) :
  name_ st = Some a → formula_ st = Some f →
  nameChanges math b = Some b → a ≠ b →
  S !! a = Some (text f) → sc !! a = Some (value_ id) →
  (Item_step math id st (nameInput b)).1.2 = [target b (text f) (value_ id)]
  ∧ name_ (Item_step math id st (nameInput b)).1.1 = Some b
  ∧ removeName (Item_step math id st (nameInput b)).1.1 = b
  ∧ storageReducer (target b (text f) (value_ id)) S !! a = Some (text f)
  ∧ storageReducer (target b (text f) (value_ id)) S !! b = Some (text f)
  ∧ scopeReducer (target b (text f) (value_ id)) sc !! a = Some (value_ id)
  ∧ scopeReducer (target b (text f) (value_ id)) sc !! b = Some (value_ id)
  ∧ (a ∉ js_chars b →
       storageReducer (remove b)
         (storageReducer (target b (text f) (value_ id)) S) !! a = Some (text f)
       ∧ scopeReducer (remove b)
           (scopeReducer (target b (text f) (value_ id)) sc) !! a
         = Some (value_ id)).
Proof.
  intros Ha Hf Hb Hab HS Hsc.
  assert (Hstep : Item_step math id st (nameInput b)
                  = ({| name_ := Some b; formulaRaw := formulaRaw st;
                        formula_ := formula_ st; removeName := b |},
                     [target b (text f) (value_ id)], [])).
  { cbn [Item_step]. rewrite Hb. unfold ret, name_step.
    rewrite repeats_equals. cbn [name_ remove_step].
    rewrite bool_decide_eq_false_2 by congruence.
    cbn [formulaRaw formula_ removeName remove_step]. by rewrite Hf. }
  rewrite Hstep. cbn [fst snd name_ removeName storageReducer scopeReducer].
  unfold formulaReducer, valueReducer, R.set. cbn [R.setter R.lensProp].
  do 3 (split; [done|]).
  split; [by rewrite lookup_insert_ne|]. split; [by rewrite lookup_insert_eq|].
  split; [by rewrite lookup_insert_ne|]. split; [by rewrite lookup_insert_eq|].
  intros Hchars. rewrite !removeReducer_lookup. cbn [R.indexed].
  rewrite !decide_False by done. by rewrite !lookup_insert_ne.
Qed.

Lemma rename_keeps_old_entry_witness :
  (name_ (Item_run Sample.mathjs 0 fresh [initial "a" "1"]).1.1 = Some "a"
   ∧ nameChanges Sample.mathjs "b" = Some "b")
  ∧ (Item_step Sample.mathjs 0 (Item_run Sample.mathjs 0 fresh [initial "a" "1"]).1.1
       (nameInput "b")).1.2
    = [target "b" "1" (value_ 0)].
Proof.
  split; [split; vm_compute; reflexivity|].
  apply (rename_keeps_old_entry Sample.mathjs 0
           (Item_run Sample.mathjs 0 fresh [initial "a" "1"]).1.1 "a" "b"
           {| text := "1"; expr := ConstantNode 1; vars := [] |}
           {[ "a" := "1" ]} {[ "a" := value_ 0 ]}).
  - vm_compute. reflexivity.
  - vm_compute. reflexivity.
  - vm_compute. reflexivity.
  - discriminate.
  - vm_compute. reflexivity.
  - vm_compute. reflexivity.
Defined.

(** X18: the row of a cell shows the same label for the value [0] as for
    [undefined] and for no value yet; and a formula edit that does not
    parse leaves the row as it was, with the text of the accepted
    formula. *)
Theorem view_blank_and_unchanged (toString : Z → string) (math : MathJs) (id : nat)
    (st : ItemState) (v : option JSValue) (t : string) (e : error) :
  parse math t = Throw e →
  Item_view toString st (Some (VNumber 0)) = Item_view toString st None
  ∧ Item_view toString st (Some VUndefined) = Item_view toString st None
  ∧ Item_view toString (Item_step math id st (formulaInput t)).1.1 v
    = Item_view toString st v.
Proof.
  intros Hp. split; [done|]. split; [done|].
  cbn [Item_step].
  destruct (formula_step_spec math id st t)
    as (Hn & _ & [(Hf & _ & _) | (f & Hf & _)]).
  - unfold Item_view. by rewrite Hn, Hf.
  - unfold parseFormula in Hf. by rewrite Hp in Hf.
Qed.

Lemma view_blank_and_unchanged_witness :
  parse Sample.mathjs "1 +" = Throw "Unexpected end of expression"
  ∧ Item_view pretty
      (Item_step Sample.mathjs 0 (Item_run Sample.mathjs 0 fresh [initial "a" "1"]).1.1
         (formulaInput "1 +")).1.1 (Some (VNumber 1))
    = Item_view pretty (Item_run Sample.mathjs 0 fresh [initial "a" "1"]).1.1
        (Some (VNumber 1)).
Proof.
  split; [reflexivity|].
  apply (view_blank_and_unchanged pretty Sample.mathjs 0
           (Item_run Sample.mathjs 0 fresh [initial "a" "1"]).1.1
           (Some (VNumber 1)) "1 +" "Unexpected end of expression").
  reflexivity.
Defined.

(** X19: only the first value read from storage is used; when it is
    absent or the empty string the text [{}] is parsed in its place, and
    the sheet then starts with no cell, an empty scope, and one request
    that writes the empty mapping. *)
Theorem first_run_is_empty_sheet (JSON_parse : string → result PersistedState)
    (math : MathJs) (stringify : PersistedState → string)
    (r : option string) (rest : list (option string)) :
  JSON_parse "{}" = Ok ∅ →
  fromStorage_ JSON_parse (r :: rest) = fromStorage_ JSON_parse [r]
  ∧ fromStorage_ JSON_parse (None :: rest) = [Ok ∅]
  ∧ fromStorage_ JSON_parse (Some "" :: rest) = [Ok ∅]
  ∧ bootstrap math ∅ = []
  ∧ scope_ (bootstrap math ∅) = [∅]
  ∧ storage_ stringify ∅ (bootstrap math ∅)
    = [{| key := "formulas"; value := stringify ∅ |}].
Proof.
  intros Hparse. unfold fromStorage_. cbn [take fmap list_fmap].
  split; [done|]. split; [by rewrite Hparse|].
  split; [unfold R.isEmpty; rewrite bool_decide_eq_true_2 by done; by rewrite Hparse|].
  assert (Hb : bootstrap math ∅ = []).
  { unfold bootstrap, restored, asCollection. by rewrite map_to_list_empty. }
  rewrite Hb. done.
Qed.

Lemma first_run_is_empty_sheet_witness :
  Sample.parse_json "{}" = Ok ∅
  ∧ fromStorage_ Sample.parse_json (None :: [Some "{}"]) = [Ok ∅].
Proof.
  split; [reflexivity|].
  apply (first_run_is_empty_sheet Sample.parse_json Sample.mathjs Sample.stringify
           None [Some "{}"]).
  reflexivity.
Defined.
